(** * Verification of the execution core of AutoEnv

    Shallow embedding of
    - [src/base/pipeline/base_node.py]     ([BaseNode.add])
    - [src/base/pipeline/base_pipeline.py] ([BasePipeline._collect_nodes], [BasePipeline.run])
    - [src/benchmarks/base/benchmark.py]   ([Benchmark] and [EnvWrapper]). *)

From Stdlib Require Import String Ascii.
From Stdlib Require Import List Bool Arith Lia ZArith.
From Stdlib Require Import Relation_Operators Operators_Properties.
From Stdlib Require Import Sorted Permutation.
From Stdlib Require Import PrimFloat FloatOps FloatAxioms Uint63.
Import ListNotations.

Open Scope list_scope.

(* ================================================================= *)
(** ** Node graphs *)

Module Pipeline.

(** A node object is identified by its [node_id] (here a [nat]).  The
    node objects alive in the program form the heap [univ]; each node
    carries its [successors] and [predecessors] lists, which hold
    references to other node objects of the heap. *)
Record Graph := mkGraph {
  univ : list nat;
  successors : nat -> list nat;
  predecessors : nat -> list nat
}.

(** Python's [x in lst] on node lists. *)
Definition mem (x : nat) (l : list nat) : bool := existsb (Nat.eqb x) l.

Definition upd (f : nat -> list nat) (k : nat) (v : list nat) : nat -> list nat :=
  fun x => if Nat.eqb x k then v else f x.

(** [BaseNode.add] for a single node:
<<
    if node not in self.successors:
        self.successors.append(node)
    if self not in node.predecessors:
        node.predecessors.append(self)
>> *)
Definition add_one (g : Graph) (self node : nat) : Graph :=
  let g1 :=
    if mem node (successors g self) then g
    else mkGraph (univ g) (upd (successors g) self (successors g self ++ [node]))
                 (predecessors g) in
  if mem self (predecessors g1 node) then g1
  else mkGraph (univ g1) (successors g1)
               (upd (predecessors g1) node (predecessors g1 node ++ [self])).

(** [BaseNode.add(nodes)] where [nodes] is a node or a list of nodes
    ([node_list = [nodes] if isinstance(nodes, BaseNode) else nodes]);
    [a >> b] is [a.add(b)]. *)
Definition add (g : Graph) (self : nat) (nodes : list nat) : Graph :=
  fold_left (fun g n => add_one g self n) nodes g.

(** Fresh nodes: [successors] and [predecessors] default to empty lists. *)
Definition fresh_graph (ids : list nat) : Graph :=
  mkGraph ids (fun _ => []) (fun _ => []).

(** Graphs reachable from fresh nodes by a sequence of [add] calls on
    nodes of the heap. *)
Inductive built : Graph -> Prop :=
| built_fresh ids : built (fresh_graph ids)
| built_add g a ns :
    built g -> In a (univ g) -> incl ns (univ g) -> built (add g a ns).

(** Edge consistency: every reference points into the heap, the two edge
    lists are mirror images of each other, and none holds a duplicate. *)
Record wf (g : Graph) : Prop := {
  wf_succ_closed : forall n s, In n (univ g) -> In s (successors g n) -> In s (univ g);
  wf_pred_closed : forall n p, In n (univ g) -> In p (predecessors g n) -> In p (univ g);
  wf_sym : forall a b, In b (successors g a) <-> In a (predecessors g b);
  wf_succ_nodup : forall n, NoDup (successors g n);
  wf_pred_nodup : forall n, NoDup (predecessors g n)
}.

(** The edge relation: [a -> b] when [b] is a successor of [a]. *)
Definition step (g : Graph) (a b : nat) : Prop := In b (successors g a).

Definition reachable (g : Graph) (root x : nat) : Prop :=
  clos_refl_trans nat (step g) root x.

Definition acyclic (g : Graph) : Prop :=
  forall x, ~ clos_trans nat (step g) x x.

(* ----------------------------------------------------------------- *)
(** *** [BasePipeline._collect_nodes] *)

(** The inner [dfs] of [_collect_nodes], threading the [visited] set and
    the [nodes] list.  The recursion of the source is bounded by the
    number of heap nodes; [fuel] makes that bound explicit and
    [collect_nodes] supplies enough of it (see [dfs_spec]).
<<
    def dfs(node):
        if node.node_id in visited: return
        visited.add(node.node_id)
        nodes.append(node)
        for s in node.successors: dfs(s)
>> *)
Fixpoint dfs (g : Graph) (fuel : nat) (node : nat) (st : list nat * list nat)
  : list nat * list nat :=
  match fuel with
  | O => st
  | S f =>
    let '(visited, nodes) := st in
    if mem node visited then st
    else fold_left (fun acc s => dfs g f s acc) (successors g node)
                   (node :: visited, nodes ++ [node])
  end.

Definition collect_nodes (g : Graph) (root : nat) : list nat :=
  snd (dfs g (S (length (univ g))) root ([], [])).

(* ----------------------------------------------------------------- *)
(** *** [BasePipeline.run] *)

(** Outcome of a run: the frontiers executed, in order, and either the
    normal return of [ctx] or the [ValueError("Cycle detected in DAG")].
    [RunStuck] is the exhaustion of the loop bound, which never happens
    ([run_terminates]). *)
Inductive run_result :=
| RunOk (trace : list (list nat))
| RunCycle (trace : list (list nat))
| RunStuck.

(** [in_degree[s.node_id] -= 1] *)
Definition decr (deg : nat -> Z) (s : nat) : nat -> Z :=
  fun x => if Nat.eqb x s then (deg x - 1)%Z else deg x.

(** [executed.add(node_id)] on a set. *)
Definition set_add (x : nat) (l : list nat) : list nat :=
  if mem x l then l else l ++ [x].

(** After the frontier settles:
<<
    for node_id in ready:
        executed.add(node_id)
        for s in node_map[node_id].successors:
            in_degree[s.node_id] -= 1
>> *)
Fixpoint mark_round (g : Graph) (ready executed : list nat) (deg : nat -> Z)
  : list nat * (nat -> Z) :=
  match ready with
  | [] => (executed, deg)
  | nid :: r =>
    mark_round g r (set_add nid executed) (fold_left decr (successors g nid) deg)
  end.

(** [ready = [nid for nid, deg in in_degree.items() if deg == 0 and nid not in executed]];
    the keys of [in_degree] are the collected nodes, in order. *)
Definition ready_of (nodes executed : list nat) (deg : nat -> Z) : list nat :=
  filter (fun nid => Z.eqb (deg nid) 0 && negb (mem nid executed)) nodes.

(** The [while len(executed) < len(nodes)] loop; [acc] holds the executed
    frontiers, latest first. *)
Fixpoint run_loop (g : Graph) (nodes : list nat) (fuel : nat)
         (executed : list nat) (deg : nat -> Z) (acc : list (list nat))
  : run_result :=
  match fuel with
  | O => RunStuck
  | S f =>
    if length executed <? length nodes then
      match ready_of nodes executed deg with
      | [] => RunCycle (rev acc)
      | ready =>
        let '(executed', deg') := mark_round g ready executed deg in
        run_loop g nodes f executed' deg' (ready :: acc)
      end
    else RunOk (rev acc)
  end.

(** [in_degree = {n.node_id: len(n.predecessors) for n in nodes}] *)
Definition init_deg (g : Graph) : nat -> Z :=
  fun n => Z.of_nat (length (predecessors g n)).

Definition run (g : Graph) (root : nat) : run_result :=
  let nodes := collect_nodes g root in
  run_loop g nodes (S (length nodes)) [] (init_deg g) [].

(* ----------------------------------------------------------------- *)
(** *** Auxiliary notions for the proofs *)

(** Heap nodes not yet visited: the measure that bounds the recursion. *)
Definition unvisited (U V : list nat) : nat :=
  length (filter (fun u => negb (mem u V)) U).

Definition st_inv (V N : list nat) : Prop :=
  (forall x, In x V <-> In x N) /\ NoDup N.

Definition dfs_post (g : Graph) (n : nat) (V V' N' : list nat) : Prop :=
  st_inv V' N' /\ incl V V' /\ In n V' /\
  (forall x, In x V' -> In x V \/ reachable g n x) /\
  (forall x, In x V' -> ~ In x V -> forall s, In s (successors g x) -> In s V').

(** Executed nodes of [E] that have [n] among their successors: each
    decremented [in_degree[n]] once. *)
Definition hits (g : Graph) (n : nat) (E : list nat) : nat :=
  length (filter (fun m => mem n (successors g m)) E).

(** Every node of a frontier has each predecessor in an earlier frontier. *)
Definition ordered (g : Graph) (tr : list (list nat)) : Prop :=
  forall i x p, In x (nth i tr []) -> In p (predecessors g x) ->
    exists j, j < i /\ In p (nth j tr []).

(** What a finished loop guarantees about the executed frontiers. *)
Definition run_post (g : Graph) (nodes : list nat) (r : run_result) : Prop :=
  match r with
  | RunOk tr =>
    NoDup (concat tr) /\ (forall x, In x (concat tr) <-> In x nodes) /\ ordered g tr
  | RunCycle tr =>
    NoDup (concat tr) /\ incl (concat tr) nodes /\ ordered g tr /\
    (exists x, In x nodes /\ ~ In x (concat tr)) /\
    (forall x, In x nodes -> ~ In x (concat tr) ->
       exists p, In p (predecessors g x) /\ ~ In p (concat tr))
  | RunStuck => False
  end.

Definition loop_inv (g : Graph) (nodes E : list nat) (deg : nat -> Z)
           (acc : list (list nat)) : Prop :=
  NoDup E /\ incl E nodes /\ (forall x, In x E <-> In x (concat (rev acc))) /\
  NoDup (concat (rev acc)) /\ ordered g (rev acc) /\
  (forall x, deg x = (Z.of_nat (length (predecessors g x)) - Z.of_nat (hits g x E))%Z).

(* ----------------------------------------------------------------- *)
(** *** Concrete node graphs *)

(** The diamond [0 >> [1, 2]; 1 >> 3; 2 >> 3]. *)
Definition diamond : Graph :=
  add (add (add (fresh_graph [0; 1; 2; 3]) 0 [1; 2]) 1 [3]) 2 [3].

(** Two sources [0 >> 1] and [2 >> 1], run from root [0]. *)
Definition two_sources : Graph :=
  add (add (fresh_graph [0; 1; 2]) 0 [1]) 2 [1].

(** [0 >> 1; 1 >> 2; 2 >> 1]: a cycle behind the root. *)
Definition cyclic : Graph :=
  add (add (add (fresh_graph [0; 1; 2]) 0 [1]) 1 [2]) 2 [1].

(** [BasePipeline.visualize]: the Mermaid text of the graph, one line per
    source node and one line per predecessor edge, over the nodes of
    [_collect_nodes]:
<<
    lines = ["graph TD"]
    for node in self._collect_nodes():
        if not node.predecessors:
            lines.append(f"    {node.node_id}")
        for p in node.predecessors:
            lines.append(f"    {p.node_id} --> {node.node_id}")
    return "\n".join(lines)
>>
    [name n] is the [node_id] string of node [n]. *)
Definition node_line (name : nat -> string) (n : nat) : string :=
  String.append "    " (name n).

Definition edge_line (name : nat -> string) (p n : nat) : string :=
  String.append "    " (String.append (name p) (String.append " --> " (name n))).

Definition node_lines (g : Graph) (name : nat -> string) (n : nat) : list string :=
  (if Nat.eqb (length (predecessors g n)) 0 then [node_line name n] else []) ++
  map (fun p => edge_line name p n) (predecessors g n).

Definition visualize_lines (g : Graph) (name : nat -> string) (root : nat) : list string :=
  "graph TD"%string :: flat_map (node_lines g name) (collect_nodes g root).

Definition visualize (g : Graph) (name : nat -> string) (root : nat) : string :=
  String.concat (String (ascii_of_nat 10) EmptyString) (visualize_lines g name root).


End Pipeline.

(* ================================================================= *)
(** ** The benchmark orchestrator ([src/benchmarks/base/benchmark.py]) *)

Module Bench.

(** Exceptions raised on the paths modelled here. *)
Inductive value_error :=
| LevelMissingOrInvalid     (** [_load_env_world]: level file absent or not YAML *)
| MissingRequiredFiles      (** [_load_env_world]: empty or absent instruction / action space *)
| EnvMainNotFound           (** [_load_env]: no [env_main.py] *)
| NoSkinEnvSubclass         (** [_load_env]: the module defines no [SkinEnv] subclass *)
| NegativeSemaphoreValue.   (** [asyncio.Semaphore(k)] with [k < 0] *)

Inductive exn :=
| ValueError (r : value_error)
| ImportError               (** executing [env_main.py] raised *)
| YAMLError                 (** [yaml.safe_load] of [config.yaml] *)
| OSError                   (** a file-system operation failed *)
| ZeroDivisionError
| SolverError               (** the solver's [run] raised *)
| AttributeError            (** a [dict] method called on a JSON value that is not an object *)
| TypeError.                (** [sum] over a JSON value that is not a number *)

Inductive result (A : Type) :=
| Ok (a : A)
| Err (e : exn).
Arguments Ok {A} a.
Arguments Err {A} e.

Definition bind {A B} (r : result A) (f : A -> result B) : result B :=
  match r with Ok a => f a | Err e => Err e end.

(** *** Python values used by the orchestrator *)

(** Truthiness of a float ([0.0] and [-0.0] are falsy, [nan] is truthy). *)
Definition truthy_float (x : float) : bool := negb (PrimFloat.eqb x 0%float).

(** [x / y] on floats: Python raises instead of returning an infinity. *)
Definition py_truediv (x y : float) : result float :=
  if PrimFloat.eqb y 0%float then Err ZeroDivisionError else Ok (x / y)%float.

(** [float(v or 0.0)] for an optional float value. *)
Definition float_or_zero (v : option float) : float :=
  match v with
  | Some x => if truthy_float x then x else 0%float
  | None => 0%float
  end.

(** [float(n)] for an int of magnitude below [2^62]. *)
Definition float_of_Z (z : Z) : float :=
  if (z <? 0)%Z then (- PrimFloat.of_uint63 (Uint63.of_Z (- z)))%float
  else PrimFloat.of_uint63 (Uint63.of_Z z).

(** [x / n] for a float [x] and an int [n]: Python converts [n] to a
    float and raises when it is zero, that is when [n] is zero. *)
Definition py_truediv_int (x : float) (n : Z) : result float :=
  if Z.eqb n 0 then Err ZeroDivisionError else Ok (x / float_of_Z n)%float.

(** [sum(xs)] of floats: [0 + x1 + ... + xn]. *)
Definition fsum (xs : list float) : float := fold_left PrimFloat.add xs 0%float.

(** Dicts with string keys, as association lists in insertion order. *)
Fixpoint dict_get {V} (k : string) (d : list (string * V)) (default : V) : V :=
  match d with
  | [] => default
  | (k', v) :: r => if String.eqb k k' then v else dict_get k r default
  end.

Fixpoint dict_set {V} (k : string) (v : V) (d : list (string * V)) : list (string * V) :=
  match d with
  | [] => [(k, v)]
  | (k', v') :: r => if String.eqb k k' then (k', v) :: r else (k', v') :: dict_set k v r
  end.

(** [str.lower] on ASCII text. *)
Definition lower_char (c : ascii) : ascii :=
  let n := nat_of_ascii c in
  if (65 <=? n) && (n <=? 90) then ascii_of_nat (n + 32) else c.

Fixpoint lower (s : string) : string :=
  match s with
  | EmptyString => EmptyString
  | String c r => String (lower_char c) (lower r)
  end.

(** Python's prefix slice [l[:n]] (a negative [n] counts from the end). *)
Definition py_prefix {A} (n : Z) (l : list A) : list A :=
  if (0 <=? n)%Z then firstn (Z.to_nat n) l
  else firstn (length l - Z.to_nat (- n)) l.

(** *** The environment folder *)

(** Values produced by [json.load]. *)
Inductive json :=
| JNull
| JBool (b : bool)
| JNum (x : float)
| JStr (s : string)
| JArr (l : list json)
| JObj (fields : list (string * json)).

(** The file [level_max_rewards.json] of the environment folder: missing,
    not decodable ([json.JSONDecodeError]), or decoded. *)
Inductive max_rewards_file :=
| MRAbsent
| MRUndecodable
| MRDecoded (data : json).

(** [s.replace('.yaml', '')]: every non-overlapping occurrence, scanning
    left to right; [fuel] bounds the scan by the length of [s]. *)
Fixpoint replace_yaml_aux (fuel : nat) (s : string) : string :=
  match fuel with
  | O => s
  | S f =>
      match s with
      | EmptyString => EmptyString
      | String c r =>
          if String.prefix ".yaml" s then replace_yaml_aux f (substring 5 (String.length s - 5) s)
          else String c (replace_yaml_aux f r)
      end
  end.

Definition replace_yaml (s : string) : string := replace_yaml_aux (String.length s) s.

(** The loop of [Benchmark._load_max_rewards]:
<<
    for level_name, level_info in levels_data.items():
        level_id = level_name.replace('.yaml', '')
        max_reward = level_info.get("max_reward", 0.0)
        max_rewards[level_id] = max_reward
>>
    [None] is the [AttributeError] of [level_info.get] when [level_info]
    is not an object. *)
Fixpoint collect_max_rewards (max_rewards : list (string * json)) (levels : list (string * json))
  : option (list (string * json)) :=
  match levels with
  | [] => Some max_rewards
  | (level_name, JObj level_info) :: rest =>
      collect_max_rewards
        (dict_set (replace_yaml level_name) (dict_get "max_reward" level_info (JNum 0%float)) max_rewards)
        rest
  | _ :: _ => None
  end.

(** [Benchmark._load_max_rewards]: [{}] when the file is missing or
    undecodable; [None] is the [AttributeError] of [data.get] or of
    [levels_data.items()] on a value that is not an object, which the
    [except (json.JSONDecodeError, KeyError)] clause does not catch. *)
Definition load_max_rewards (f : max_rewards_file) : option (list (string * json)) :=
  match f with
  | MRAbsent | MRUndecodable => Some []
  | MRDecoded (JObj data) =>
      match dict_get "levels" data (JObj []) with
      | JObj levels_data => collect_max_rewards [] levels_data
      | _ => None
      end
  | MRDecoded _ => None
  end.


(** Outcome of [yaml.safe_load] on a file. *)
Inductive yaml_file := YamlOk | YamlMalformed.

(** A directory: its entries (file name, content), or [None] if it does not
    exist.  The order of the entries is the (unspecified) order of
    [Path.glob]. *)
Definition level_dir := option (list (string * yaml_file)).

(** [config.yaml]: absent, not YAML, or parsed; [ConfigLoaded ms] records
    [config["termination"]["max_steps"]] when present. *)
Inductive config_file :=
| ConfigAbsent
| ConfigMalformed
| ConfigLoaded (max_steps : option Z).

(** [env_main.py]: absent, raising when executed, or loaded (with or
    without a [SkinEnv] subclass). *)
Inductive env_main_file :=
| EnvMainAbsent
| EnvMainRaises
| EnvMainLoaded (has_skinenv_subclass : bool).

Record Workload := mkWorkload {
  wl_path : string;                            (** [env_folder_path] *)
  wl_levels : level_dir;                       (** [levels/] *)
  wl_val_levels : level_dir;                   (** [val_levels/] *)
  wl_agent_instruction : option string;        (** [agent_instruction.txt] *)
  wl_action_space : option string;             (** [action_space.txt] *)
  wl_config : config_file;                     (** [config.yaml] *)
  wl_env_main : env_main_file;                 (** [env_main.py] *)
  wl_max_rewards : max_rewards_file           (** [level_max_rewards.json] *)
}.

(** *** Selecting the worlds *)

Definition ends_with_yaml (name : string) : bool :=
  let n := String.length name in
  (5 <=? n) && String.eqb (substring (n - 5) 5 name) ".yaml".

(** [Path(name).stem] for a name ending in [.yaml]: the suffix is dropped
    unless the name is [.yaml] itself. *)
Definition stem (name : string) : string :=
  let n := String.length name in
  if 5 <? n then substring 0 (n - 5) name else name.

Fixpoint insert_sorted (x : string) (l : list string) : list string :=
  match l with
  | [] => [x]
  | y :: r => if String.leb x y then x :: l else y :: insert_sorted x r
  end.

(** [sorted] on a list of strings. *)
Fixpoint sort_strings (l : list string) : list string :=
  match l with
  | [] => []
  | x :: r => insert_sorted x (sort_strings r)
  end.

(** The stems collected by the loop over [levels_dir.glob("*.yaml")]
    ([[]] when the directory does not exist). *)
Definition level_ids (levels_dir : level_dir) : list string :=
  match levels_dir with
  | None => []
  | Some entries => map stem (filter ends_with_yaml (map fst entries))
  end.

(** The order used by [sorted] on strings (the byte order of the
    UTF-8 text, which is the order of the code points). *)
Definition str_le (a b : string) : Prop := String.leb a b = true.

(** [Benchmark._list_env_worlds]. *)
Definition list_env_worlds (wl : Workload) (mode : string) : list string :=
  let levels_dir := if String.eqb mode "val" then wl_val_levels wl else wl_levels wl in
  sort_strings (level_ids levels_dir).

(** [str(world_mode or "test").lower()], then anything outside
    [{"test", "val"}] becomes ["test"].  Only ASCII letters are lowered:
    no other character lowers to a letter of ["test"] or ["val"]. *)
Definition normalize_mode (world_mode : option string) : string :=
  let m := lower (match world_mode with
                  | None | Some EmptyString => "test"
                  | Some s => s
                  end) in
  if String.eqb m "test" || String.eqb m "val" then m else "test".

(** The world ids selected at the start of [Benchmark.execute]. *)
Definition select_worlds (wl : Workload) (world_mode : option string)
    (max_worlds : option Z) : list string :=
  let ids := list_env_worlds wl (normalize_mode world_mode) in
  match max_worlds with
  | None => ids
  | Some n => py_prefix n ids
  end.

(** *** Loading one world *)

Definition dir_lookup (d : level_dir) (name : string) : option yaml_file :=
  match d with
  | None => None
  | Some entries => option_map snd (find (fun e => String.eqb (fst e) name) entries)
  end.

Definition yaml_name (level_id : string) : string := String.append level_id ".yaml".

(** [Benchmark._validate_level]: [val_levels/] first, then [levels/]; the
    first existing candidate decides. *)
Definition validate_level (wl : Workload) (level_id : string) : bool :=
  match dir_lookup (wl_val_levels wl) (yaml_name level_id) with
  | Some YamlOk => true
  | Some YamlMalformed => false
  | None =>
      match dir_lookup (wl_levels wl) (yaml_name level_id) with
      | Some YamlOk => true
      | _ => false
      end
  end.

(** [if not s] for an optional text. *)
Definition truthy_str (s : option string) : bool :=
  match s with
  | Some t => negb (String.eqb t EmptyString)
  | None => false
  end.

(** [Benchmark._load_env] (its effect on the working directory and on
    [sys.path] is modelled in [Loader] below). *)
Definition load_env (wl : Workload) : result unit :=
  match wl_env_main wl with
  | EnvMainAbsent => Err (ValueError EnvMainNotFound)
  | EnvMainRaises => Err ImportError
  | EnvMainLoaded true => Ok tt
  | EnvMainLoaded false => Err (ValueError NoSkinEnvSubclass)
  end.

Record EnvInfo := mkEnvInfo {
  ei_world_id : string;
  ei_agent_instruction : string;
  ei_action_space : string;
  ei_max_step : option Z
}.

(** [Benchmark._load_env_world] (with [_get_env_info] inlined; the
    instantiation of the environment class is assumed to succeed). *)
Definition load_env_world (wl : Workload) (world_id : string) : result EnvInfo :=
  if negb (validate_level wl world_id) then Err (ValueError LevelMissingOrInvalid) else
  let effective_world_id :=
    match dir_lookup (wl_levels wl) (yaml_name world_id),
          dir_lookup (wl_val_levels wl) (yaml_name world_id) with
    | None, Some _ => String.append "../val_levels/" world_id
    | _, _ => world_id
    end in
  match wl_config wl with
  | ConfigMalformed => Err YAMLError
  | cfg =>
      match wl_agent_instruction wl, wl_action_space wl with
      | Some instr, Some act =>
          if truthy_str (Some instr) && truthy_str (Some act) then
            let max_step := match cfg with ConfigLoaded ms => ms | _ => None end in
            bind (load_env wl) (fun _ =>
              Ok (mkEnvInfo effective_world_id instr act max_step))
          else Err (ValueError MissingRequiredFiles)
      | _, _ => Err (ValueError MissingRequiredFiles)
      end
  end.

(** What [solver.run(env, env_info)] returns. *)
Record SolverOut := mkSolverOut {
  so_total_reward : option float;   (** [result.get("total_reward")] *)
  so_step : option Z                (** [result.get("step")] *)
}.

(** [run_world(world_id)] inside [execute]; [solver] stands for the
    solver's [run] on the loaded environment. *)
Definition run_world (wl : Workload) (solver : EnvInfo -> result SolverOut)
    (world_id : string) : result (string * SolverOut * EnvInfo) :=
  bind (load_env_world wl world_id) (fun ei =>
  bind (solver ei) (fun r => Ok (world_id, r, ei))).

(** [asyncio.gather] over the awaitables, without [return_exceptions]: every awaitable
    runs; if one raised, [gather] raises (the first failure here, in list
    order) and no list of results is returned. *)
Fixpoint gather {A} (rs : list (result A)) : result (list A) :=
  match rs with
  | [] => Ok []
  | r :: rest => bind r (fun a => bind (gather rest) (fun l => Ok (a :: l)))
  end.

(** *** Aggregation *)

Record WorldDetail := mkWorldDetail {
  wd_world_id : string;
  wd_reward : float;
  wd_steps : Z;
  wd_max_reward : float;
  wd_ratio : option float;
  wd_max_step : option Z
}.

(** [(num / den) if den else None]. *)
Definition ratio_of (num den : float) : result (option float) :=
  if truthy_float den then bind (py_truediv num den) (fun q => Ok (Some q))
  else Ok None.

(** The body of the aggregation loop of [execute] for one world
    (event counting is not modelled). *)
Definition world_detail (per_world_max : list (string * float))
    (item : string * SolverOut * EnvInfo) : result WorldDetail :=
  let '(world_id, res, ei) := item in
  let reward := float_or_zero (so_total_reward res) in
  let steps := match so_step res with Some z => z | None => 0%Z end in
  let max_reward_world := dict_get world_id per_world_max 0%float in
  bind (ratio_of reward max_reward_world) (fun ratio_world =>
  Ok (mkWorldDetail world_id reward steps max_reward_world ratio_world (ei_max_step ei))).

Fixpoint map_result {A B} (f : A -> result B) (l : list A) : result (list B) :=
  match l with
  | [] => Ok []
  | x :: r => bind (f x) (fun y => bind (map_result f r) (fun ys => Ok (y :: ys)))
  end.

(** The attributes of a [Benchmark] object touched by [execute]. *)
Record BenchState := mkBench {
  b_llm_name : string;
  b_results : list (string * float);
  b_max_rewards : list (string * float);
  b_costs : list (string * option float);
  b_per_world_max_rewards : list (string * list (string * json));
  b_world_details : list (string * list WorldDetail);
  b_env_durations : list (string * float);
  b_env_world_ids : list (string * list string)
}.

Definition empty_bench (llm : string) : BenchState := mkBench llm [] [] [] [] [] [] [].

(** *** The report row *)

(** A CSV cell: text or a number; [None] is written as the empty text. *)
Inductive cell :=
| CStr (s : string)
| CFloat (x : float)
| CInt (z : Z)
| CNone.

Definition opt_float_cell (v : option float) : cell :=
  match v with Some x => CFloat x | None => CNone end.

(** [len(detail["world_id"])] is nonzero. *)
Definition truthy_id (s : string) : bool := negb (String.eqb s EmptyString).

(** The row built by [_save_env_result_to_csv], or [None] when
    [self.results] is empty ([env_path] is the last key of [results];
    [now] is [time.strftime(...)]; no events are reported). *)
Definition build_row (st : BenchState) (now : string) : option (result (list (string * cell))) :=
  match rev (b_results st) with
  | [] => None
  | (env_path, _) :: _ => Some (
      let total_reward := float_or_zero (Some (dict_get env_path (b_results st) 0%float)) in
      let max_reward_total := float_or_zero (Some (dict_get env_path (b_max_rewards st) 0%float)) in
      bind (ratio_of total_reward max_reward_total) (fun ratio =>
      let cost := dict_get env_path (b_costs st) None in
      let world_details := dict_get env_path (b_world_details st) [] in
      let duration_seconds := match find (fun p => String.eqb (fst p) env_path) (b_env_durations st) with
                              | Some (_, d) => Some d | None => None end in
      let loaded_world_ids := dict_get env_path (b_env_world_ids st) [] in
      let world_ids := match loaded_world_ids with
                       | [] => map wd_world_id (filter (fun d => truthy_id (wd_world_id d)) world_details)
                       | _ => loaded_world_ids
                       end in
      let world_count := Z.of_nat (length world_ids) in
      let total_steps := fold_left Z.add (map wd_steps world_details) 0%Z in
      (* [(x / world_count) if world_count else None]; for [total_steps]
         the int division is taken as the division of the two floats
         (the same for counts below [2^53]) *)
      let avg_over (x : float) :=
        if negb (Z.eqb world_count 0) then bind (py_truediv_int x world_count) (fun q => Ok (Some q))
        else Ok None in
      bind (avg_over (float_of_Z total_steps)) (fun avg_steps_per_world =>
      bind (avg_over total_reward) (fun avg_reward_per_world =>
      let success_worlds :=
        length (filter (fun d => match wd_ratio d with
                                 | Some r => PrimFloat.leb 0.999%float r
                                 | None => false end) world_details) in
      Ok [("env_folder_path", CStr env_path);
          ("llm", CStr (b_llm_name st));
          ("total_reward", CFloat total_reward);
          ("max_reward_total", CFloat max_reward_total);
          ("ratio", opt_float_cell ratio);
          ("cost", opt_float_cell cost);
          ("timestamp", CStr now);
          ("world_count", CInt world_count);
          ("world_ids", CStr (String.concat "|" world_ids));
          ("avg_reward_per_world", opt_float_cell avg_reward_per_world);
          ("total_steps", CInt total_steps);
          ("avg_steps_per_world", opt_float_cell avg_steps_per_world);
          ("success_worlds", CInt (Z.of_nat success_worlds));
          ("events_summary", CStr EmptyString);
          ("duration_seconds", opt_float_cell duration_seconds)]%string))))
  end.

(** *** The report file *)

(** A CSV file as its lines of cells; the first line is the header. *)
Definition csv_file := list (list cell).

(** Text of a header cell (headers are written as column names). *)
Definition cell_key (c : cell) : string :=
  match c with CStr s => s | _ => EmptyString end.

(** [csv.field_size_limit()]: reading a longer field raises [csv.Error]. *)
Definition field_size_limit : nat := 131072.

Definition cell_too_large (c : cell) : bool :=
  match c with CStr s => field_size_limit <? String.length s | _ => false end.

(** [csv.DictReader]: the field names (first line) and the data lines
    (blank lines skipped), or [None] when the reader raises. *)
Definition csv_read (f : csv_file) : option (list string * list (list cell)) :=
  if existsb (existsb cell_too_large) f then None else
  match f with
  | [] => Some ([], [])
  | hdr :: lines => Some (map cell_key hdr, filter (fun l => negb (length l =? 0)) lines)
  end.

(** [dict(zip(fieldnames, row))] with the missing trailing fields set to
    [None] (the surplus fields go under the key [None]). *)
Fixpoint zip_row (fieldnames : list string) (l : list cell) : list (string * cell) :=
  match fieldnames, l with
  | [], _ => []
  | k :: ks, [] => (k, CNone) :: zip_row ks []
  | k :: ks, c :: cs => (k, c) :: zip_row ks cs
  end.

(** [old_row.get(key, "")]: the last binding of [key] wins, as in a dict. *)
Definition row_get (fieldnames : list string) (l : list cell) (key : string) : cell :=
  match find (fun p => String.eqb (fst p) key) (rev (zip_row fieldnames l)) with
  | Some (_, c) => c
  | None => CStr EmptyString
  end.

(** [csv.DictWriter.writerow] writes [None] as the empty text. *)
Definition write_cell (c : cell) : cell :=
  match c with CNone => CStr EmptyString | _ => c end.


Definition migrate_row (fieldnames keys : list string) (l : list cell) : list cell :=
  map (fun k => write_cell (row_get fieldnames l k)) keys.

Fixpoint list_eqb (l1 l2 : list string) : bool :=
  match l1, l2 with
  | [], [] => true
  | x :: r1, y :: r2 => String.eqb x y && list_eqb r1 r2
  | _, _ => false
  end.

(** File-system operations that may fail. *)
Inductive io_op :=
| OpMakedirs   (** [os.makedirs] of [_init_result_folder] *)
| OpRead | OpWriteTemp | OpMove | OpAppend.

(** The report file ([None] if it does not exist) and which operations
    fail. *)
Record Fs := mkFs {
  fs_csv : option csv_file;
  fs_fail : io_op -> bool
}.

(** The migration block of [_save_env_result_to_csv]; every exception in
    it is swallowed ([except Exception: pass]). *)
Definition migrate_csv (keys : list string) (fs : Fs) : option csv_file :=
  match fs_csv fs with
  | Some ((_ :: _) as f) =>
      if fs_fail fs OpRead then Some f else
      match csv_read f with
      | None => Some f
      | Some (fieldnames, old_rows) =>
          if list_eqb fieldnames keys then Some f
          else if fs_fail fs OpWriteTemp || fs_fail fs OpMove then Some f
          else Some (map CStr keys :: map (migrate_row fieldnames keys) old_rows)
      end
  | other => other
  end.

(** [Benchmark._save_env_result_to_csv]: the new file system and the
    exception it raises, if any.  Failures of [fcntl.flock] are
    swallowed and have no effect on the file; its [os.makedirs] of the
    result folder succeeds, [_init_result_folder] having created it at
    the start of [execute]. *)
Definition save_csv (st : BenchState) (now : string) (fs : Fs) : Fs * option exn :=
  match build_row st now with
  | None => (fs, None)
  | Some (Err e) => (fs, Some e)
  | Some (Ok row) =>
      let keys := map fst row in
      let file1 := migrate_csv keys fs in
      if fs_fail fs OpAppend then (mkFs file1 (fs_fail fs), Some OSError) else
      let header := match file1 with Some (_ :: _) => [] | _ => [map CStr keys] end in
      let base := match file1 with Some f => f | None => [] end in
      (mkFs (Some (base ++ header ++ [map (fun p => write_cell (snd p)) row])) (fs_fail fs), None)
  end.

(** *** [Benchmark.execute] *)

(** How [await execute(...)] ends: it returns, raises, or never
    completes (the gather waits forever on a semaphore of value 0). *)
Inductive outcome :=
| Returned
| Raised (e : exn)
| Blocked.

Definition set_results st v := mkBench (b_llm_name st) v (b_max_rewards st) (b_costs st)
  (b_per_world_max_rewards st) (b_world_details st) (b_env_durations st) (b_env_world_ids st).
Definition set_max_rewards st v := mkBench (b_llm_name st) (b_results st) v (b_costs st)
  (b_per_world_max_rewards st) (b_world_details st) (b_env_durations st) (b_env_world_ids st).
Definition set_costs st v := mkBench (b_llm_name st) (b_results st) (b_max_rewards st) v
  (b_per_world_max_rewards st) (b_world_details st) (b_env_durations st) (b_env_world_ids st).
Definition set_per_world_max_rewards st v := mkBench (b_llm_name st) (b_results st) (b_max_rewards st)
  (b_costs st) v (b_world_details st) (b_env_durations st) (b_env_world_ids st).
Definition set_world_details st v := mkBench (b_llm_name st) (b_results st) (b_max_rewards st)
  (b_costs st) (b_per_world_max_rewards st) v (b_env_durations st) (b_env_world_ids st).
Definition set_env_durations st v := mkBench (b_llm_name st) (b_results st) (b_max_rewards st)
  (b_costs st) (b_per_world_max_rewards st) (b_world_details st) v (b_env_world_ids st).
Definition set_env_world_ids st v := mkBench (b_llm_name st) (b_results st) (b_max_rewards st)
  (b_costs st) (b_per_world_max_rewards st) (b_world_details st) (b_env_durations st) v.

(** A JSON value read as a number by [sum]: [True] and [False] count as
    [1] and [0]; any other non-number raises [TypeError]. *)
Definition json_number (v : json) : result float :=
  match v with
  | JNum x => Ok x
  | JBool b => Ok (if b then 1 else 0)%float
  | _ => Err TypeError
  end.

(** [sum(values)] of JSON values. *)
Definition py_sum (vs : list json) : result float :=
  bind (map_result json_number vs) (fun xs => Ok (fsum xs)).

(** A per-world maximum used as a number by the aggregation loop.  Every
    value looked up there has passed the [sum] of
    [_calculate_max_reward_total], which raises on a non-number, so the
    fallback [0] is never used. *)
Definition json_float (v : json) : float :=
  match json_number v with Ok x => x | Err _ => 0%float end.

(** The tail of [execute] after the gather: aggregation, bookkeeping,
    [_save_env_result_to_csv] and the final log line (whose division is
    guarded by [max_reward_total > 0]). *)
Definition finish (st : BenchState) (fs : Fs) (path : string) (max_reward_total : float)
    (raw_results : list (string * SolverOut * EnvInfo))
    (env_cost : option float) (now : string) : BenchState * Fs * outcome :=
  let per_world_max :=
    map (fun p => (fst p, json_float (snd p))) (dict_get path (b_per_world_max_rewards st) []) in
  match map_result (world_detail per_world_max) raw_results with
  | Err e => (st, fs, Raised e)
  | Ok world_details =>
      let st1 := set_world_details st (dict_set path world_details (b_world_details st)) in
      let cur_env_total_reward := fsum (map wd_reward world_details) in
      let st2 := set_results st1 (dict_set path cur_env_total_reward (b_results st1)) in
      let st3 := set_costs st2 (dict_set path env_cost (b_costs st2)) in
      match save_csv st3 now fs with
      | (fs', Some e) => (st3, fs', Raised e)
      | (fs', None) =>
          if PrimFloat.ltb 0%float max_reward_total then
            match py_truediv cur_env_total_reward max_reward_total with
            | Ok _ => (st3, fs', Returned)
            | Err e => (st3, fs', Raised e)
            end
          else (st3, fs', Returned)
      end
  end.

(** [Benchmark.execute] for the workload [wl] ([env_folder_path]) with
    the given [world_concurrency], [max_worlds] and [world_mode];
    [env_cost] is the cost delta read from the meter, [elapsed] the
    measured duration and [now] the timestamp text. *)
Definition execute (st : BenchState) (fs : Fs) (wl : Workload)
    (solver : EnvInfo -> result SolverOut) (world_concurrency : Z)
    (max_worlds : option Z) (world_mode : option string)
    (env_cost : option float) (elapsed : float) (now : string) : BenchState * Fs * outcome :=
  (* self._init_result_folder() *)
  if fs_fail fs OpMakedirs then (st, fs, Raised OSError) else
  let path := wl_path wl in
  let world_ids := select_worlds wl world_mode max_worlds in
  let st1 := set_env_world_ids st (dict_set path world_ids (b_env_world_ids st)) in
  (* self._calculate_max_reward_total(env_folder_path, world_ids) *)
  match load_max_rewards (wl_max_rewards wl) with
  | None => (st1, fs, Raised AttributeError)
  | Some max_rewards_dict =>
  let filtered := map (fun w => (w, dict_get w max_rewards_dict (JNum 0%float))) world_ids in
  let st2 := set_per_world_max_rewards st1 (dict_set path filtered (b_per_world_max_rewards st1)) in
  match py_sum (map snd filtered) with
  | Err e => (st2, fs, Raised e)
  | Ok max_reward_total =>
  let st3 := set_max_rewards st2 (dict_set path max_reward_total (b_max_rewards st2)) in
  if (world_concurrency <? 0)%Z then (st3, fs, Raised (ValueError NegativeSemaphoreValue)) else
  if (world_concurrency =? 0)%Z && negb (length world_ids =? 0) then (st3, fs, Blocked) else
  match gather (map (run_world wl solver) world_ids) with
  | Err e => (st3, fs, Raised e)
  | Ok raw_results =>
      let st4 := set_env_durations st3 (dict_set path elapsed (b_env_durations st3)) in
      finish st4 fs path max_reward_total raw_results env_cost now
  end
  end
  end.

End Bench.

(* ================================================================= *)
(** ** Admission of worlds by [asyncio.Semaphore(world_concurrency)] *)

Module Semaphore.

(** Where the coroutine [run_world_with_semaphore(world_id)] of one world
    is: waiting in [async with semaphore], running [run_world] while
    holding the semaphore, or finished (normally or by an exception). *)
Inductive phase := Waiting | Running | Finished (ok : bool).

Record sem_state := mkSem {
  sem_value : Z;        (** [semaphore._value] *)
  items : list phase    (** one entry per world of the batch *)
}.

(** [asyncio.Semaphore(k)] raises [ValueError] when [k < 0]; the [n]
    coroutines start out waiting. *)
Definition sem_init (k : Z) (n : nat) : option sem_state :=
  if (k <? 0)%Z then None else Some (mkSem k (repeat Waiting n)).

(** Steps of the event loop.  A waiting coroutine is granted the
    semaphore when its value is positive ([acquire], or a wake-up by
    [_wake_up_next], both of which decrement [_value]); any order of
    grants is allowed.  Leaving the [async with] block, normally or by an
    exception, calls [release], which increments [_value]. *)
Inductive sem_step : sem_state -> sem_state -> Prop :=
| step_acquire v l1 l2 :
    (0 < v)%Z ->
    sem_step (mkSem v (l1 ++ Waiting :: l2)) (mkSem (v - 1) (l1 ++ Running :: l2))
| step_release v l1 l2 ok :
    sem_step (mkSem v (l1 ++ Running :: l2)) (mkSem (v + 1) (l1 ++ Finished ok :: l2)).

Definition is_running (p : phase) : bool :=
  match p with Running => true | _ => false end.

(** Number of worlds in flight. *)
Definition in_flight (s : sem_state) : nat := length (filter is_running (items s)).

(** The accounting invariant of the semaphore for a bound [k] and [n]
    worlds. *)
Definition sem_inv (k : Z) (n : nat) (s : sem_state) : Prop :=
  (0 <= sem_value s)%Z /\ (sem_value s + Z.of_nat (in_flight s) = k)%Z /\ length (items s) = n.

(** A measure of the work left in a batch, for the progress argument: a
    waiting world has two steps ahead of it, a running one a single step. *)
Definition weight (p : phase) : nat :=
  match p with Waiting => 2 | Running => 1 | Finished _ => 0 end.

Definition pending (s : sem_state) : nat := fold_right (fun p n => weight p + n) 0 (items s).

Definition is_finished (p : phase) : bool :=
  match p with Finished _ => true | _ => false end.


End Semaphore.

(* ================================================================= *)
(** ** Working directory and [sys.path] around the environment code *)

Module Loader.
Import Bench.

(** The process-wide state touched by [_load_env] and [EnvWrapper]: the
    working directory, [sys.path], and the directories that exist (as
    absolute paths without [.] or [..] segments; there are no symbolic
    links). *)
Record Proc := mkProc {
  cwd : string;
  sys_path : list string;
  dirs : list string
}.

Definition str_in (x : string) (l : list string) : bool := existsb (String.eqb x) l.

Definition set_sys_path (p : Proc) (l : list string) : Proc := mkProc (cwd p) l (dirs p).

(** The segments of a path between its ["/"] separators. *)
Fixpoint split_path_aux (seg s : string) : list string :=
  match s with
  | EmptyString => [seg]
  | String c r =>
      if Ascii.eqb c "/"%char then seg :: split_path_aux EmptyString r
      else split_path_aux (String.append seg (String c EmptyString)) r
  end.

Definition split_path (s : string) : list string := split_path_aux EmptyString s.

(** Resolves the segments onto a stack of directory names (innermost
    first): empty and ["."] segments are skipped, [".."] drops one name
    (and stays at the root). *)
Fixpoint norm_segs (stack segs : list string) : list string :=
  match segs with
  | [] => stack
  | seg :: rest =>
      if String.eqb seg EmptyString || String.eqb seg "." then norm_segs stack rest
      else if String.eqb seg ".." then norm_segs (tl stack) rest
      else norm_segs (seg :: stack) rest
  end.

(** The directory the kernel resolves [d] to from the working directory
    [cwd]: an absolute [d] ignores [cwd], a relative one is taken from
    it. *)
Definition abspath (cwd d : string) : string :=
  let segs := if String.prefix "/" d then split_path d
              else app (split_path cwd) (split_path d) in
  String.append "/" (String.concat "/" (rev (norm_segs [] segs))).

(** An absolute path without empty, [.] or [..] segments, as
    [os.getcwd()] and [Path.resolve()] return them. *)
Definition canonical (d : string) : bool := String.eqb (abspath "/" d) d.

(** [os.chdir(d)]. *)
Definition chdir (d : string) (p : Proc) : result Proc :=
  let d' := abspath (cwd p) d in
  if str_in d' (dirs p) then Ok (mkProc d' (sys_path p) (dirs p)) else Err OSError.

(** [list.remove(x)]: drops the first occurrence only. *)
Fixpoint remove_first (x : string) (l : list string) : list string :=
  match l with
  | [] => []
  | y :: r => if String.eqb x y then r else y :: remove_first x r
  end.

(** The part of [Benchmark._load_env] up to the [finally] clause:
    [env_main_exists] tells whether [env_main.py] exists, [env_dir] is the
    resolved environment directory and [exec_module] runs the module body
    (its effect on the process state, and whether it raises). *)
Definition load_env_proc (env_main_exists : bool) (env_dir : string)
    (exec_module : Proc -> Proc * option exn) (p : Proc) : Proc * option exn :=
  if negb env_main_exists then (p, Some (ValueError EnvMainNotFound)) else
  let original_cwd := cwd p in
  let p1 := if str_in env_dir (sys_path p) then p
            else set_sys_path p (env_dir :: sys_path p) in
  (* try: os.chdir(env_dir); exec_module; except Exception: raise ImportError *)
  let '(p2, err) :=
    match chdir env_dir p1 with
    | Err _ => (p1, Some ImportError)
    | Ok p1' =>
        match exec_module p1' with
        | (p2, None) => (p2, None)
        | (p2, Some _) => (p2, Some ImportError)
        end
    end in
  (* finally: os.chdir(original_cwd); remove env_dir from sys.path *)
  match chdir original_cwd p2 with
  | Err e => (p2, Some e)
  | Ok p3 =>
      let p4 := if str_in env_dir (sys_path p3)
                then set_sys_path p3 (remove_first env_dir (sys_path p3)) else p3 in
      (p4, err)
  end.

(** The state in which [_load_env] runs the module body. *)
Definition load_entry (env_dir : string) (p : Proc) : Proc :=
  mkProc env_dir (if str_in env_dir (sys_path p) then sys_path p else env_dir :: sys_path p) (dirs p).

(** A call [wrapped_env.m(...)] of a method through [EnvWrapper]: [meth]
    is the method's effect on the process state and its result. *)
Definition wrapper_call {A} (env_folder_path : string)
    (meth : Proc -> Proc * result A) (p : Proc) : Proc * result A :=
  let original_cwd := cwd p in
  let '(p2, r) :=
    match chdir env_folder_path p with
    | Err e => (p, Err e)
    | Ok p1 => meth p1
    end in
  match chdir original_cwd p2 with
  | Err e => (p2, Err e)
  | Ok p3 => (p3, r)
  end.

End Loader.

(* ================================================================= *)
(** ** Concrete inputs *)

Module Scenarios.
Import Bench.
Local Open Scope string_scope.

(** A maze environment with five test levels. *)
Definition maze (level_03 : yaml_file) : Workload := mkWorkload
  "envs/maze"
  (Some [("level_04.yaml", YamlOk); ("level_02.yaml", YamlOk); ("notes.txt", YamlOk);
         ("level_05.yaml", YamlOk); ("level_01.yaml", YamlOk); ("level_03.yaml", level_03)])
  (Some [("level_00.yaml", YamlOk)])
  (Some "Reach the exit.") (Some "move(direction)")
  (ConfigLoaded (Some 50%Z)) (EnvMainLoaded true)
  (MRDecoded (JObj [("levels", JObj
     [("level_01.yaml", JObj [("max_reward", JNum 1%float)]);
      ("level_02.yaml", JObj [("max_reward", JNum 1%float)]);
      ("level_03.yaml", JObj [("max_reward", JNum 1%float)]);
      ("level_04.yaml", JObj [("max_reward", JNum 1%float)]);
      ("level_05.yaml", JObj [("max_reward", JNum 1%float)])])])).

(** The map [_load_max_rewards] reads from the [maze] folder. *)
Definition maze_max_rewards : list (string * json) :=
  [("level_01", JNum 1%float); ("level_02", JNum 1%float); ("level_03", JNum 1%float);
   ("level_04", JNum 1%float); ("level_05", JNum 1%float)].

(** A solver that completes every world with reward [1.0] in 12 steps. *)
Definition steady_solver (_ : EnvInfo) : result SolverOut :=
  Ok (mkSolverOut (Some 1%float) (Some 12%Z)).

Definition no_failure (_ : io_op) : bool := false.

Definition append_fails (op : io_op) : bool :=
  match op with OpAppend => true | _ => false end.

Definition now : string := "2026-10-19 12:00:00".

(** A benchmark object after [execute] stored one result. *)
Definition st_done : BenchState :=
  mkBench "gpt-4o" [("envs/maze", 3%float)] [("envs/maze", 4%float)] [("envs/maze", None)]
    [] [] [("envs/maze", 2%float)] [("envs/maze", ["level_01"; "level_02"])].





(** Eight-character node names, as [uuid.uuid4().hex[:8]] gives them. *)
Definition hex8 (n : nat) : string :=
  String.append "0000000" (String (ascii_of_nat (48 + n)) EmptyString).

(** A decoded [level_max_rewards.json]: [a.yaml] with its [max_reward],
    [b.yaml] without one. *)
Definition mr_data : list (string * json) :=
  [("levels", JObj [("a.yaml", JObj [("max_reward", JNum 3%float)]); ("b.yaml", JObj [])])].

(** A benchmark object that already holds results for two environments. *)
Definition st_two : BenchState :=
  mkBench "gpt-4o" [("envs/maze", 3%float); ("envs/other", 2%float)] [] [] [] [] [] [].


End Scenarios.

Module ProcScenarios.
Import Bench Loader.
Local Open Scope string_scope.

Definition proc0 : Proc := mkProc "/work" ["/usr/lib/python3"] ["/work"; "/envs/maze"].

(** A module body that puts its own directory on [sys.path], as scripts
    of the environment folders do. *)
Definition body_adds_own_dir (p : Proc) : Proc * option exn :=
  (set_sys_path p (app (sys_path p) ["/envs/maze"]), None).

(** A module body that changes directory and then raises. *)
Definition body_raises (p : Proc) : Proc * option exn :=
  (mkProc "/work" (sys_path p) (dirs p), Some SolverError).

(** A method that reads [cwd] and returns it. *)
Definition meth_cwd (p : Proc) : Proc * result string := (p, Ok (cwd p)).

(** A process whose [sys.path] already holds the environment directory. *)
Definition proc_on_path : Proc := mkProc "/work" ["/envs/maze"; "/usr/lib/python3"] ["/work"; "/envs/maze"].

(** A module body that runs without touching the process state. *)
Definition body_ok (p : Proc) : Proc * option exn := (p, None).


End ProcScenarios.

(* ================================================================= *)
(** ** Proofs about the pipeline *)

Module PipelineFacts.
Import Pipeline.

Ltac case_eqb :=
  match goal with
  | |- context [Nat.eqb ?x ?y] =>
    let E := fresh "Ee" in
    destruct (Nat.eqb x y) eqn:E;
    [apply Nat.eqb_eq in E; subst | apply Nat.eqb_neq in E]
  end.

Ltac solve_built :=
  repeat first [apply built_fresh | apply built_add];
  first [vm_compute; tauto
        | let x := fresh in let Hx := fresh in
          intros x Hx; vm_compute in Hx; vm_compute; intuition].

Lemma mem_In x l : mem x l = true <-> In x l.
Proof.
  unfold mem. rewrite existsb_exists. split.
  - intros [y [Hy Heq]]. apply Nat.eqb_eq in Heq. subst. exact Hy.
  - intros H. exists x. split; [exact H | apply Nat.eqb_refl].
Qed.

Lemma mem_false x l : mem x l = false <-> ~ In x l.
Proof.
  split.
  - intros H Hin. apply mem_In in Hin. congruence.
  - intros H. destruct (mem x l) eqn:E; [apply mem_In in E; contradiction | reflexivity].
Qed.

Ltac case_mem :=
  match goal with
  | |- context [mem ?x ?l] =>
    let E := fresh "Em" in
    destruct (mem x l) eqn:E;
    [apply mem_In in E | apply mem_false in E]
  end.

(* ----------------------------------------------------------------- *)
(** *** [BaseNode.add] *)

Lemma add_one_univ g a b : univ (add_one g a b) = univ g.
Proof. unfold add_one. repeat (case_mem; simpl); reflexivity. Qed.

Lemma add_one_succ g a b x :
  successors (add_one g a b) x =
  if Nat.eqb x a && negb (mem b (successors g a))
  then successors g a ++ [b] else successors g x.
Proof.
  unfold add_one, upd.
  destruct (mem b (successors g a)) eqn:E1; simpl;
    destruct (mem a _); simpl; rewrite ?andb_false_r, ?andb_true_r; try reflexivity.
  all: destruct (Nat.eqb x a); reflexivity.
Qed.

Lemma add_one_pred g a b x :
  predecessors (add_one g a b) x =
  if Nat.eqb x b && negb (mem a (predecessors g b))
  then predecessors g b ++ [a] else predecessors g x.
Proof.
  unfold add_one, upd.
  destruct (mem b (successors g a)) eqn:E1; simpl;
    destruct (mem a (predecessors g b)) eqn:E2; simpl;
    rewrite ?andb_false_r, ?andb_true_r; try reflexivity.
Qed.

Lemma NoDup_snoc (l : list nat) x : NoDup l -> ~ In x l -> NoDup (l ++ [x]).
Proof.
  intros Hl Hx. apply NoDup_app; auto using NoDup_cons, NoDup_nil.
  intros y Hy Hy'. destruct Hy' as [<- | []]. contradiction.
Qed.

Lemma add_one_wf g a b :
  wf g -> In a (univ g) -> In b (univ g) -> wf (add_one g a b).
Proof.
  intros [Hsc Hpc Hsym Hsn Hpn] Ha Hb.
  constructor; rewrite ?add_one_univ.
  - intros n s Hn Hs. rewrite add_one_succ in Hs.
    revert Hs; repeat case_eqb; repeat case_mem; simpl;
      rewrite ?in_app_iff; simpl; intros; intuition (subst; eauto).
  - intros n p Hn Hp. rewrite add_one_pred in Hp.
    revert Hp; repeat case_eqb; repeat case_mem; simpl;
      rewrite ?in_app_iff; simpl; intros; intuition (subst; eauto).
  - intros x y. rewrite add_one_succ, add_one_pred.
    repeat case_eqb; repeat case_mem; simpl; rewrite ?in_app_iff; simpl;
      rewrite ?Hsym in *; intuition (subst; eauto; try congruence).
  - intros n. rewrite add_one_succ.
    repeat case_eqb; repeat case_mem; simpl; auto using NoDup_snoc.
  - intros n. rewrite add_one_pred.
    repeat case_eqb; repeat case_mem; simpl; auto using NoDup_snoc.
Qed.

Lemma add_one_in_succ g a b : In b (successors (add_one g a b) a).
Proof.
  rewrite add_one_succ, Nat.eqb_refl. simpl.
  case_mem; simpl; rewrite ?in_app_iff; simpl; auto.
Qed.

Lemma add_one_in_pred g a b : In a (predecessors (add_one g a b) b).
Proof.
  rewrite add_one_pred, Nat.eqb_refl. simpl.
  case_mem; simpl; rewrite ?in_app_iff; simpl; auto.
Qed.

Lemma add_one_idem g a b : add_one (add_one g a b) a b = add_one g a b.
Proof.
  unfold add_one at 1.
  assert (H1 := add_one_in_succ g a b). apply mem_In in H1. rewrite H1.
  assert (H2 := add_one_in_pred g a b). apply mem_In in H2. rewrite H2.
  reflexivity.
Qed.

Lemma add_wf g a ns :
  wf g -> In a (univ g) -> incl ns (univ g) -> wf (add g a ns).
Proof.
  unfold add. revert g. induction ns as [|n ns IH]; intros g Hg Ha Hns; simpl; auto.
  apply IH.
  - apply add_one_wf; auto. apply Hns. left; reflexivity.
  - rewrite add_one_univ. exact Ha.
  - rewrite add_one_univ. intros x Hx. apply Hns. right; exact Hx.
Qed.

Lemma built_wf g : built g -> wf g.
Proof.
  induction 1.
  - constructor; simpl; try tauto; intros; constructor.
  - apply add_wf; auto.
Qed.

Lemma NoDup_count_1 (l : list nat) x : NoDup l -> In x l -> count_occ Nat.eq_dec l x = 1.
Proof. intros Hl Hx. apply (proj1 (NoDup_count_occ' Nat.eq_dec l) Hl x Hx). Qed.

(* ----------------------------------------------------------------- *)
(** *** [_collect_nodes] *)

Lemma unvisited_mono U V V' : incl V V' -> unvisited U V' <= unvisited U V.
Proof.
  intros Hinc. unfold unvisited. induction U as [|u U IH]; simpl; auto.
  destruct (mem u V') eqn:E1; destruct (mem u V) eqn:E2; simpl; try lia.
  apply mem_In in E2. apply mem_false in E1. exfalso. auto.
Qed.

Lemma unvisited_strict U V V' n :
  In n U -> ~ In n V -> In n V' -> incl V V' -> unvisited U V' < unvisited U V.
Proof.
  intros HU HV HV' Hinc. unfold unvisited. induction U as [|u U IH]; simpl; [destruct HU|].
  destruct (in_dec Nat.eq_dec n U) as [Hin|Hnin].
  - specialize (IH Hin).
    destruct (mem u V') eqn:E1; destruct (mem u V) eqn:E2; simpl; try lia.
    apply mem_In in E2. apply mem_false in E1. exfalso. auto.
  - destruct HU as [<- | HU]; [|contradiction].
    apply mem_false in HV. apply mem_In in HV'. rewrite HV, HV'. simpl.
    pose proof (unvisited_mono U V V' Hinc) as Hm. unfold unvisited in Hm. lia.
Qed.

Lemma unvisited_nil U : unvisited U [] = length U.
Proof. unfold unvisited. induction U; simpl; auto. Qed.

Section Dfs.
Variable g : Graph.
Hypothesis Hclosed : forall n s, In n (univ g) -> In s (successors g n) -> In s (univ g).

Lemma dfs_fold f :
  (forall n V N V' N', In n (univ g) -> unvisited (univ g) V < f -> st_inv V N ->
     dfs g f n (V, N) = (V', N') -> dfs_post g n V V' N') ->
  forall l V0 N0 V' N',
    incl l (univ g) -> unvisited (univ g) V0 < f -> st_inv V0 N0 ->
    fold_left (fun acc s => dfs g f s acc) l (V0, N0) = (V', N') ->
    st_inv V' N' /\ incl V0 V' /\ incl l V' /\
    (forall x, In x V' -> In x V0 \/ exists s, In s l /\ reachable g s x) /\
    (forall x, In x V' -> ~ In x V0 -> forall s, In s (successors g x) -> In s V').
Proof.
  intros IHf l. induction l as [|s l IH]; intros V0 N0 V' N' Hl Hc Hinv Hf; simpl in Hf.
  - inversion Hf; subst. split; [exact Hinv|]. split; [apply incl_refl|].
    split; [intros x []|]. split.
    + intros x Hx. left. exact Hx.
    + intros x Hx Hn. contradiction.
  - destruct (dfs g f s (V0, N0)) as [V1 N1] eqn:Hd.
    assert (Hs : In s (univ g)) by (apply Hl; left; reflexivity).
    destruct (IHf s V0 N0 V1 N1 Hs Hc Hinv Hd) as (Hinv1 & Hinc1 & Hs1 & Hr1 & Hcl1).
    assert (Hc1 : unvisited (univ g) V1 < f)
      by (pose proof (unvisited_mono (univ g) V0 V1 Hinc1); lia).
    destruct (IH V1 N1 V' N' (fun x Hx => Hl x (or_intror Hx)) Hc1 Hinv1 Hf)
      as (Hinv' & Hinc' & Hl' & Hr' & Hcl').
    split; [exact Hinv'|]. split; [|split; [|split]].
    + intros x Hx. apply Hinc', Hinc1, Hx.
    + intros x [<- | Hx]; [apply Hinc', Hs1 | apply Hl', Hx].
    + intros x Hx. destruct (Hr' x Hx) as [Hx1 | (s' & Hs' & Hr)].
      * destruct (Hr1 x Hx1) as [H0 | Hr]; [left; exact H0 | right; exists s; split; auto].
        left; reflexivity.
      * right. exists s'. split; [right; exact Hs' | exact Hr].
    + intros x Hx Hn s' Hs'. destruct (in_dec Nat.eq_dec x V1) as [Hx1 | Hx1].
      * apply Hinc'. exact (Hcl1 x Hx1 Hn s' Hs').
      * exact (Hcl' x Hx Hx1 s' Hs').
Qed.

Lemma dfs_spec f :
  forall n V N V' N', In n (univ g) -> unvisited (univ g) V < f -> st_inv V N ->
    dfs g f n (V, N) = (V', N') -> dfs_post g n V V' N'.
Proof.
  induction f as [|f IHf]; intros n V N V' N' Hn Hc Hinv Hd; [lia|].
  simpl in Hd. destruct (mem n V) eqn:Em.
  - inversion Hd; subst. apply mem_In in Em. unfold dfs_post.
    split; [exact Hinv|]. split; [apply incl_refl|]. split; [exact Em|]. split.
    + intros x Hx. left. exact Hx.
    + intros x Hx Hx'. contradiction.
  - apply mem_false in Em.
    assert (Hinv0 : st_inv (n :: V) (N ++ [n])).
    { destruct Hinv as [Heq Hnd]. split.
      - intros x. rewrite in_app_iff. simpl. rewrite Heq. tauto.
      - apply NoDup_snoc; auto. rewrite <- Heq. exact Em. }
    assert (Hc0 : unvisited (univ g) (n :: V) < f).
    { pose proof (unvisited_strict (univ g) V (n :: V) n Hn Em (or_introl eq_refl)
                    (fun x Hx => or_intror Hx)). lia. }
    destruct (dfs_fold f IHf (successors g n) (n :: V) (N ++ [n]) V' N'
                (fun s Hs => Hclosed n s Hn Hs) Hc0 Hinv0 Hd)
      as (Hinv' & Hinc' & Hl' & Hr' & Hcl').
    unfold dfs_post. split; [exact Hinv'|]. split; [|split; [|split]].
    + intros x Hx. apply Hinc'. right. exact Hx.
    + apply Hinc'. left. reflexivity.
    + intros x Hx. destruct (Hr' x Hx) as [[<- | H0] | (s & Hs & Hr)].
      * right. apply rt_refl.
      * left. exact H0.
      * right. eapply rt_trans; [apply rt_step; exact Hs | exact Hr].
    + intros x Hx Hn' s Hs. destruct (Nat.eq_dec x n) as [-> | Hne].
      * apply Hl'. exact Hs.
      * apply (Hcl' x Hx); [intros [H0 | H0]; [congruence | contradiction] | exact Hs].
Qed.

Lemma collect_nodes_spec root :
  In root (univ g) ->
  NoDup (collect_nodes g root) /\
  (forall x, In x (collect_nodes g root) <-> reachable g root x).
Proof.
  intros Hr. unfold collect_nodes.
  destruct (dfs g (S (length (univ g))) root ([], [])) as [V' N'] eqn:Hd. simpl.
  assert (Hc : unvisited (univ g) [] < S (length (univ g))) by (rewrite unvisited_nil; lia).
  assert (Hinv : st_inv [] []) by (split; [tauto | constructor]).
  destruct (dfs_spec _ root [] [] V' N' Hr Hc Hinv Hd)
    as ((Heq & Hnd) & _ & Hroot & Hreach & Hcl).
  split; [exact Hnd|]. intros x. rewrite <- Heq. split.
  - intros Hx. destruct (Hreach x Hx) as [[] | H]. exact H.
  - intros H. apply clos_rt_rtn1_iff in H. induction H as [|y z Hyz Hry IH].
    + exact Hroot.
    + apply (Hcl y IH (fun H => H) z Hyz).
Qed.

End Dfs.

(* ----------------------------------------------------------------- *)
(** *** The scheduling loop of [run] *)

Lemma decr_fold l deg x :
  fold_left decr l deg x = (deg x - Z.of_nat (count_occ Nat.eq_dec l x))%Z.
Proof.
  revert deg. induction l as [|a l IH]; intros deg; simpl; [lia|].
  rewrite IH. unfold decr. destruct (Nat.eq_dec a x) as [-> | Hne].
  - rewrite Nat.eqb_refl. lia.
  - replace (Nat.eqb x a) with false by (symmetry; apply Nat.eqb_neq; congruence). lia.
Qed.

Lemma count_nodup (l : list nat) x :
  NoDup l -> count_occ Nat.eq_dec l x = if mem x l then 1 else 0.
Proof.
  intros Hl. destruct (mem x l) eqn:E.
  - apply mem_In in E. apply NoDup_count_1; auto.
  - apply mem_false in E. apply count_occ_not_In. exact E.
Qed.

Lemma hits_app g x E R : hits g x (E ++ R) = hits g x E + hits g x R.
Proof. unfold hits. rewrite filter_app, length_app. reflexivity. Qed.

Lemma incl_or_missing (l1 l2 : list nat) :
  incl l1 l2 \/ exists x, In x l1 /\ ~ In x l2.
Proof.
  induction l1 as [|a l1 IH]; [left; intros x []|].
  destruct (in_dec Nat.eq_dec a l2) as [Ha | Ha].
  - destruct IH as [IH | (x & Hx & Hx')].
    + left. intros x [<- | Hx]; auto.
    + right. exists x. split; [right|]; auto.
  - right. exists a. split; [left|]; auto.
Qed.

Lemma nth_In_lt (tr : list (list nat)) i x : In x (nth i tr []) -> i < length tr.
Proof.
  intros H. destruct (Nat.lt_ge_cases i (length tr)) as [Hl | Hge]; auto.
  rewrite nth_overflow in H by exact Hge. destruct H.
Qed.

Lemma concat_nth (tr : list (list nat)) p :
  In p (concat tr) -> exists j, j < length tr /\ In p (nth j tr []).
Proof.
  induction tr as [|r tr IH]; simpl; [intros []|].
  rewrite in_app_iff. intros [H | H].
  - exists 0. split; [lia | exact H].
  - destruct (IH H) as (j & Hj & Hin). exists (S j). split; [lia | exact Hin].
Qed.

Lemma nth_concat (tr : list (list nat)) j p : In p (nth j tr []) -> In p (concat tr).
Proof.
  revert j. induction tr as [|r tr IH]; intros j; simpl.
  - destruct j; intros [].
  - rewrite in_app_iff. destruct j; [left; auto | right; eapply IH; eauto].
Qed.

Lemma ordered_pred_in g tr x p :
  ordered g tr -> In x (concat tr) -> In p (predecessors g x) -> In p (concat tr).
Proof.
  intros Hord Hx Hp. destruct (concat_nth tr x Hx) as (i & _ & Hi).
  destruct (Hord i x p Hi Hp) as (j & _ & Hj). exact (nth_concat tr j p Hj).
Qed.

Lemma ordered_snoc g tr r :
  ordered g tr -> (forall x, In x r -> incl (predecessors g x) (concat tr)) ->
  ordered g (tr ++ [r]).
Proof.
  intros Hord Hr i x p Hx Hp.
  destruct (Nat.lt_ge_cases i (length tr)) as [Hi | Hi].
  - rewrite app_nth1 in Hx by exact Hi.
    destruct (Hord i x p Hx Hp) as (j & Hj & Hin). exists j. split; [exact Hj|].
    rewrite app_nth1 by lia. exact Hin.
  - rewrite app_nth2 in Hx by exact Hi.
    destruct (i - length tr) as [|k] eqn:Hk; simpl in Hx.
    + destruct (concat_nth tr p (Hr x Hx p Hp)) as (j & Hj & Hin).
      exists j. split; [lia|]. rewrite app_nth1 by exact Hj. exact Hin.
    + destruct k; destruct Hx.
Qed.

Section Loop.
Variable g : Graph.
Hypothesis Hwf : wf g.
Variable nodes : list nat.
Hypothesis Hnd : NoDup nodes.

Lemma mark_round_spec ready :
  forall E deg, NoDup ready -> (forall x, In x ready -> ~ In x E) ->
  fst (mark_round g ready E deg) = E ++ ready /\
  (forall x, snd (mark_round g ready E deg) x = (deg x - Z.of_nat (hits g x ready))%Z).
Proof.
  induction ready as [|r ready IH]; intros E deg Hr Hdis; simpl.
  - split; [rewrite app_nil_r; reflexivity | intros x; unfold hits; simpl; lia].
  - inversion Hr as [|? ? Hr1 Hr2]; subst.
    assert (Hsa : set_add r E = E ++ [r]).
    { unfold set_add. replace (mem r E) with false; [reflexivity|].
      symmetry. apply mem_false. apply Hdis. left; reflexivity. }
    rewrite Hsa.
    destruct (IH (E ++ [r]) (fold_left decr (successors g r) deg) Hr2) as [H1 H2].
    { intros x Hx Hx'. apply in_app_iff in Hx'. destruct Hx' as [Hx' | [<- | []]].
      - apply (Hdis x); [right|]; auto.
      - contradiction. }
    split.
    + rewrite H1, <- app_assoc. reflexivity.
    + intros x. rewrite H2, decr_fold, count_nodup by apply (wf_succ_nodup _ Hwf).
      unfold hits. simpl. destruct (mem x (successors g r)); simpl; lia.
Qed.

Lemma hits_full x E :
  NoDup E -> (hits g x E = length (predecessors g x) <-> incl (predecessors g x) E).
Proof.
  intros HE. unfold hits.
  set (F := filter (fun m => mem x (successors g m)) E).
  assert (HF : forall m, In m F <-> In m E /\ In m (predecessors g x)).
  { intros m. unfold F. rewrite filter_In, mem_In, <- (wf_sym _ Hwf). reflexivity. }
  assert (HFnd : NoDup F) by (apply NoDup_filter; exact HE).
  assert (HFinc : incl F (predecessors g x)) by (intros m Hm; apply HF; exact Hm).
  split.
  - intros Hlen m Hm.
    assert (Hm' : In m F).
    { apply (NoDup_length_incl (l' := predecessors g x) HFnd); auto. lia. }
    apply HF in Hm'. apply Hm'.
  - intros Hinc.
    pose proof (NoDup_incl_length HFnd HFinc).
    assert (incl (predecessors g x) F) by (intros m Hm; apply HF; auto).
    pose proof (NoDup_incl_length (wf_pred_nodup _ Hwf x) H0). lia.
Qed.

Lemma loop_spec fuel :
  forall E deg acc,
  loop_inv g nodes E deg acc -> length nodes < fuel + length E ->
  run_post g nodes (run_loop g nodes fuel E deg acc).
Proof.
  induction fuel as [|f IH]; intros E deg acc Hinv Hf;
    destruct Hinv as (HEnd & HEinc & HEacc & Hcnd & Hord & Hdeg).
  - simpl in Hf. pose proof (NoDup_incl_length HEnd HEinc). lia.
  - simpl. destruct (length E <? length nodes) eqn:Hlt.
    + apply Nat.ltb_lt in Hlt.
      assert (Hready : forall x, In x (ready_of nodes E deg) <->
                        In x nodes /\ incl (predecessors g x) E /\ ~ In x E).
      { intros x. unfold ready_of. rewrite filter_In, andb_true_iff, negb_true_iff,
          Z.eqb_eq, mem_false, Hdeg, <- (hits_full x E HEnd). split.
        - intros (H1 & H2 & H3). repeat split; auto. lia.
        - intros (H1 & H2 & H3). repeat split; auto. lia. }
      destruct (ready_of nodes E deg) as [|r rs] eqn:Hro.
      * simpl. split; [exact Hcnd|]. split; [intros x Hx; apply HEinc, HEacc, Hx|].
        split; [exact Hord|]. split.
        -- destruct (incl_or_missing nodes E) as [Hinc | (x & Hx & Hx')].
           ++ pose proof (NoDup_incl_length Hnd Hinc). lia.
           ++ exists x. split; [exact Hx|]. rewrite <- HEacc. exact Hx'.
        -- intros x Hx Hx'. rewrite <- HEacc in Hx'.
           destruct (incl_or_missing (predecessors g x) E) as [Hinc | (p & Hp & Hp')].
           ++ exfalso. apply (proj2 (Hready x)); auto.
           ++ exists p. split; [exact Hp|]. rewrite <- HEacc. exact Hp'.
      * assert (HRnd : NoDup (r :: rs)) by (rewrite <- Hro; apply NoDup_filter; exact Hnd).
        assert (HRdis : forall x, In x (r :: rs) -> ~ In x E)
          by (intros x Hx; apply Hready in Hx; apply Hx).
        destruct (mark_round_spec (r :: rs) E deg HRnd HRdis) as [Hm1 Hm2].
        change (mark_round g rs (set_add r E) (fold_left decr (successors g r) deg))
          with (mark_round g (r :: rs) E deg).
        destruct (mark_round g (r :: rs) E deg) as [E' deg'] eqn:Hm. simpl in Hm1, Hm2.
        subst E'. apply IH.
        -- split; [|split; [|split; [|split; [|split]]]].
           ++ apply NoDup_app; auto. intros x Hx Hx'. exact (HRdis x Hx' Hx).
           ++ intros x Hx. apply in_app_iff in Hx. destruct Hx as [Hx | Hx]; [apply HEinc, Hx|].
              apply Hready in Hx. apply Hx.
           ++ intros x. simpl. rewrite concat_app, !in_app_iff, HEacc. simpl.
              rewrite app_nil_r. reflexivity.
           ++ simpl. rewrite concat_app. simpl. rewrite app_nil_r.
              apply NoDup_app; auto. intros x Hx Hx'. rewrite <- HEacc in Hx.
              exact (HRdis x Hx' Hx).
           ++ simpl. apply ordered_snoc; auto. intros x Hx p Hp.
              apply HEacc. apply Hready in Hx. apply Hx, Hp.
           ++ intros x. rewrite Hm2, Hdeg, hits_app. lia.
        -- rewrite length_app. simpl. lia.
    + apply Nat.ltb_ge in Hlt.
      assert (Hall : incl nodes E) by (apply (NoDup_length_incl HEnd Hlt HEinc)).
      simpl. split; [exact Hcnd|]. split; [|exact Hord].
      intros x. rewrite <- HEacc. split; [apply HEinc | apply Hall].
Qed.

End Loop.

Lemma run_spec g root :
  wf g -> In root (univ g) ->
  let nodes := collect_nodes g root in
  NoDup nodes /\ (forall x, In x nodes <-> reachable g root x) /\
  run_post g nodes (run g root).
Proof.
  intros Hwf Hr nodes.
  destruct (collect_nodes_spec g (wf_succ_closed _ Hwf) root Hr) as [Hnd Hreach].
  split; [exact Hnd|]. split; [exact Hreach|].
  unfold run. fold nodes. apply loop_spec; auto.
  - split; [constructor|]. split; [intros x []|]. split; [simpl; tauto|].
    split; [constructor|]. split.
    + intros i x p Hx. destruct i; destruct Hx.
    + intros x. unfold init_deg, hits. simpl. lia.
  - simpl. lia.
Qed.

(* ----------------------------------------------------------------- *)
(** *** Cycles and executed frontiers *)

Lemma ordered_back g tr :
  wf g -> ordered g tr ->
  forall a b, clos_trans nat (step g) a b ->
  forall i, In b (nth i tr []) -> exists j, j < i /\ In a (nth j tr []).
Proof.
  intros Hwf Hord a b Hab. induction Hab as [a b Hs | a b c _ IH1 _ IH2]; intros i Hb.
  - apply (Hord i b a Hb). apply (wf_sym _ Hwf). exact Hs.
  - destruct (IH2 i Hb) as (j & Hj & Hbj). destruct (IH1 j Hbj) as (k & Hk & Hak).
    exists k. split; [lia | exact Hak].
Qed.

Lemma ordered_no_cycle g tr :
  wf g -> ordered g tr ->
  forall i x, In x (nth i tr []) -> ~ clos_trans nat (step g) x x.
Proof.
  intros Hwf Hord i. induction i as [i IH] using lt_wf_ind. intros x Hx Hc.
  destruct (ordered_back g tr Hwf Hord x x Hc i Hx) as (j & Hj & Hxj).
  exact (IH j Hj x Hxj Hc).
Qed.

Lemma executed_no_cycle g tr x :
  wf g -> ordered g tr -> In x (concat tr) -> ~ clos_trans nat (step g) x x.
Proof.
  intros Hwf Hord Hx. destruct (concat_nth tr x Hx) as (j & _ & Hj).
  exact (ordered_no_cycle g tr Hwf Hord j x Hj).
Qed.

Section BackWalk.
Variable g : Graph.
Variables nodes D : list nat.
Hypothesis Hback : forall x, In x nodes -> ~ In x D ->
  exists p, In p (predecessors g x) /\ In p nodes /\ ~ In p D.
Hypothesis Hwf : wf g.

(** Walking backwards from a pending node through pending predecessors
    inside the finite set [nodes] must close a cycle. *)
Lemma back_walk k :
  forall W h, length nodes < k + length W -> NoDup W -> incl W nodes ->
  (forall y, In y W -> ~ In y D) -> In h W ->
  (forall y, In y W -> clos_refl_trans nat (step g) h y) ->
  exists z, clos_trans nat (step g) z z.
Proof.
  induction k as [|k IH]; intros W h Hlen Hnd Hinc HD Hh Hr.
  - pose proof (NoDup_incl_length Hnd Hinc). simpl in Hlen. lia.
  - destruct (Hback h (Hinc h Hh) (HD h Hh)) as (p & Hp & Hpn & HpD).
    assert (Hph : step g p h) by (apply (wf_sym _ Hwf); exact Hp).
    destruct (in_dec Nat.eq_dec p W) as [HpW | HpW].
    + exists h. apply (clos_rt_t _ _ h p h (Hr p HpW)). apply t_step. exact Hph.
    + apply (IH (p :: W) p).
      * simpl. lia.
      * constructor; auto.
      * intros y [<- | Hy]; auto.
      * intros y [<- | Hy]; auto.
      * left; reflexivity.
      * intros y [<- | Hy]; [apply rt_refl|].
        eapply rt_trans; [apply rt_step; exact Hph | apply Hr; exact Hy].
Qed.

End BackWalk.

(* ----------------------------------------------------------------- *)
(** *** The concrete graphs *)

Example diamond_run : run diamond 0 = RunOk [[0]; [1; 2]; [3]].
Proof. vm_compute. reflexivity. Qed.

Example two_sources_run : run two_sources 0 = RunCycle [[0]].
Proof. vm_compute. reflexivity. Qed.

Example cyclic_run : run cyclic 0 = RunCycle [[0]].
Proof. vm_compute. reflexivity. Qed.

Lemma rank_acyclic g (rank : nat -> nat) :
  (forall a b, step g a b -> rank a < rank b) -> acyclic g.
Proof.
  intros Hr x Hx.
  assert (H : forall a b, clos_trans nat (step g) a b -> rank a < rank b).
  { intros a b Hab. induction Hab; [apply Hr; assumption | lia]. }
  specialize (H x x Hx). lia.
Qed.

Lemma diamond_built : built diamond.
Proof.
  unfold diamond. solve_built.
Qed.

Lemma diamond_wf : wf diamond.
Proof. apply built_wf, diamond_built. Qed.

Lemma diamond_acyclic : acyclic diamond.
Proof.
  apply (rank_acyclic _ (fun n => match n with 0 => 0 | 1 | 2 => 1 | _ => 2 end)).
  intros a b H. unfold step in H.
  destruct a as [|[|[|[|a]]]]; vm_compute in H; intuition (subst; lia).
Qed.

Lemma diamond_pred_closed :
  forall x p, reachable diamond 0 x -> In p (predecessors diamond x) -> reachable diamond 0 p.
Proof.
  assert (H0 : reachable diamond 0 0) by apply rt_refl.
  assert (H1 : reachable diamond 0 1) by (apply rt_step; vm_compute; tauto).
  assert (H2 : reachable diamond 0 2) by (apply rt_step; vm_compute; tauto).
  intros x p _ Hp.
  destruct x as [|[|[|[|x]]]]; vm_compute in Hp; intuition (subst; auto).
Qed.

Lemma two_sources_built : built two_sources.
Proof.
  unfold two_sources. solve_built.
Qed.

Lemma two_sources_acyclic : acyclic two_sources.
Proof.
  apply (rank_acyclic _ (fun n => match n with 1 => 1 | _ => 0 end)).
  intros a b H. unfold step in H.
  destruct a as [|[|[|a]]]; vm_compute in H; intuition (subst; lia).
Qed.

Lemma two_sources_reach_1 : reachable two_sources 0 1.
Proof. apply rt_step. unfold step. vm_compute. tauto. Qed.

Lemma two_sources_pred_1 : In 2 (predecessors two_sources 1).
Proof. vm_compute. tauto. Qed.

Lemma two_sources_unreach_2 : ~ reachable two_sources 0 2.
Proof.
  intros H.
  assert (Hu : In 0 (univ two_sources)) by (vm_compute; tauto).
  destruct (run_spec two_sources 0 (built_wf _ two_sources_built) Hu) as (_ & Hreach & _).
  apply Hreach in H. vm_compute in H. destruct H as [H|[H|[]]]; discriminate.
Qed.

Lemma cyclic_built : built cyclic.
Proof.
  unfold cyclic. solve_built.
Qed.

Lemma cyclic_reach_1 : reachable cyclic 0 1.
Proof. apply rt_step. vm_compute. tauto. Qed.

Lemma cyclic_cycle_1 : clos_trans nat (step cyclic) 1 1.
Proof.
  apply (t_trans _ _ 1 2 1); apply t_step; vm_compute; tauto.
Qed.

End PipelineFacts.

(* ================================================================= *)
(** ** Facts about the benchmark model *)

Module BenchFacts.
Import Bench.


Lemma insert_sorted_perm x l : Permutation (insert_sorted x l) (x :: l).
Proof.
  induction l as [|y r IH]; simpl; [reflexivity|].
  destruct (String.leb x y); [reflexivity|].
  rewrite IH. apply perm_swap.
Qed.

Lemma sort_strings_perm l : Permutation (sort_strings l) l.
Proof.
  induction l as [|x r IH]; simpl; [reflexivity|].
  rewrite insert_sorted_perm. constructor. exact IH.
Qed.

Lemma insert_sorted_hd a x l :
  str_le a x -> HdRel str_le a l -> HdRel str_le a (insert_sorted x l).
Proof.
  intros Hax Hl. destruct l as [|y r]; simpl.
  - constructor. exact Hax.
  - destruct (String.leb x y); constructor; [exact Hax|]. inversion Hl; assumption.
Qed.

Lemma insert_sorted_sorted x l : Sorted str_le l -> Sorted str_le (insert_sorted x l).
Proof.
  induction l as [|y r IH]; simpl; intros Hs.
  - repeat constructor.
  - destruct (String.leb x y) eqn:E.
    + constructor; [exact Hs|]. constructor. exact E.
    + inversion Hs as [|? ? Hr Hhd]; subst.
      constructor; [apply IH; exact Hr|].
      apply insert_sorted_hd; [|exact Hhd].
      destruct (String.leb_total x y) as [H|H]; [congruence|exact H].
Qed.

Lemma sort_strings_sorted l : Sorted str_le (sort_strings l).
Proof.
  induction l as [|x r IH]; simpl; [constructor|].
  apply insert_sorted_sorted. exact IH.
Qed.

Lemma normalize_mode_other s :
  lower s <> "test"%string -> lower s <> "val"%string -> normalize_mode (Some s) = "test"%string.
Proof.
  intros H1 H2. unfold normalize_mode.
  destruct s as [|c r]; [reflexivity|].
  apply String.eqb_neq in H1, H2. rewrite H1, H2. reflexivity.
Qed.

Lemma normalize_mode_kept s :
  lower s = "test"%string \/ lower s = "val"%string -> normalize_mode (Some s) = lower s.
Proof.
  intros H. unfold normalize_mode.
  destruct s as [|c r]; [destruct H; discriminate|].
  destruct H as [H|H]; rewrite H; reflexivity.
Qed.

Lemma py_prefix_nonneg {A} (n : Z) (l : list A) :
  (0 <= n)%Z -> py_prefix n l = firstn (Z.to_nat n) l.
Proof.
  intros H. unfold py_prefix. apply Z.leb_le in H. rewrite H. reflexivity.
Qed.

Lemma ratio_of_spec t m :
  ratio_of t m = Ok (if PrimFloat.eqb m 0%float then None else Some (t / m)%float).
Proof.
  unfold ratio_of, truthy_float, py_truediv.
  destruct (PrimFloat.eqb m 0%float); reflexivity.
Qed.

Lemma ltb_zero_eqb m : PrimFloat.ltb 0%float m = true -> PrimFloat.eqb m 0%float = false.
Proof.
  rewrite FloatAxioms.ltb_spec, FloatAxioms.eqb_spec.
  change (Prim2SF 0%float) with (SpecFloat.S754_zero false).
  destruct (Prim2SF m) as [[|]|[|]| |[|] mm e];
    unfold SpecFloat.SFltb, SpecFloat.SFeqb, SpecFloat.SFcompare; simpl; congruence.
Qed.


Lemma world_detail_spec pwm w r ei :
  world_detail pwm (w, r, ei) =
  Ok (mkWorldDetail w (float_or_zero (so_total_reward r))
        (match so_step r with Some z => z | None => 0%Z end)
        (dict_get w pwm 0%float)
        (if PrimFloat.eqb (dict_get w pwm 0%float) 0%float then None
         else Some (float_or_zero (so_total_reward r) / dict_get w pwm 0%float)%float)
        (ei_max_step ei)).
Proof. unfold world_detail. rewrite ratio_of_spec. reflexivity. Qed.

Lemma map_result_world_detail_ok pwm l :
  exists ds, map_result (world_detail pwm) l = Ok ds.
Proof.
  induction l as [|[[w r] ei] l [ds IH]]; cbn [map_result]; [eexists; reflexivity|].
  rewrite world_detail_spec. cbn [bind]. rewrite IH. eexists; reflexivity.
Qed.

Lemma gather_ok {A B} (f : A -> result B) l :
  (forall x, In x l -> exists b, f x = Ok b) -> exists bs, gather (map f l) = Ok bs.
Proof.
  induction l as [|x l IH]; simpl; intros H; [eexists; reflexivity|].
  destruct (H x (or_introl eq_refl)) as [b Hb]. rewrite Hb. simpl.
  destruct IH as [bs Hbs]; [intros y Hy; apply H; right; exact Hy|].
  rewrite Hbs. eexists; reflexivity.
Qed.

Lemma gather_some_err {A B} (f : A -> result B) l x e :
  In x l -> f x = Err e -> exists e', gather (map f l) = Err e'.
Proof.
  induction l as [|y l IH]; simpl; intros Hin Hx; [destruct Hin|].
  destruct (f y) as [b|e'] eqn:Hy; simpl; [|eexists; reflexivity].
  destruct Hin as [<-|Hin]; [congruence|].
  destruct (IH Hin Hx) as [e' He']. rewrite He'. eexists; reflexivity.
Qed.

Lemma gather_err {A B} (f : A -> result B) l e :
  gather (map f l) = Err e -> exists x, In x l /\ f x = Err e.
Proof.
  induction l as [|y l IH]; simpl; intros H; [discriminate|].
  destruct (f y) as [b|e'] eqn:Hy; simpl in H.
  - destruct (gather (map f l)) as [bs|e''] eqn:Hg; simpl in H; [discriminate|].
    injection H as <-. destruct (IH eq_refl) as (x & Hx & Hfx). eauto.
  - injection H as <-. eauto.
Qed.

Lemma load_env_world_not_zde wl w : load_env_world wl w <> Err ZeroDivisionError.
Proof.
  unfold load_env_world, load_env, bind.
  destruct (negb (validate_level wl w)); [discriminate|].
  destruct (wl_config wl); try discriminate;
  destruct (wl_agent_instruction wl), (wl_action_space wl); try discriminate;
  destruct (truthy_str _ && truthy_str _); try discriminate;
  destruct (wl_env_main wl) as [| |[|]]; discriminate.
Qed.

Lemma run_world_err wl solver w e :
  run_world wl solver w = Err e ->
  load_env_world wl w = Err e \/ exists ei, solver ei = Err e.
Proof.
  unfold run_world, bind. destruct (load_env_world wl w) as [ei|e'] eqn:Hl.
  - destruct (solver ei) eqn:Hs; [discriminate|]. intros [= <-]. right; eauto.
  - intros [= <-]. left; reflexivity.
Qed.

Lemma avg_ok (x : float) (n : Z) :
  (if negb (Z.eqb n 0) then bind (py_truediv_int x n) (fun q => Ok (Some q)) else Ok None) =
  Ok (if Z.eqb n 0 then None else Some (x / float_of_Z n)%float).
Proof. unfold py_truediv_int. destruct (Z.eqb n 0); reflexivity. Qed.

Lemma build_row_ok st now env_path v rest :
  rev (b_results st) = (env_path, v) :: rest ->
  exists row, build_row st now = Some (Ok row) /\
    map fst row = ["env_folder_path"; "llm"; "total_reward"; "max_reward_total"; "ratio";
                   "cost"; "timestamp"; "world_count"; "world_ids"; "avg_reward_per_world";
                   "total_steps"; "avg_steps_per_world"; "success_worlds"; "events_summary";
                   "duration_seconds"]%string /\
    In ("ratio"%string,
        opt_float_cell
          (let t := float_or_zero (Some (dict_get env_path (b_results st) 0%float)) in
           let m := float_or_zero (Some (dict_get env_path (b_max_rewards st) 0%float)) in
           if PrimFloat.eqb m 0%float then None else Some (t / m)%float)) row.
Proof.
  intros H. unfold build_row. rewrite H. cbv zeta.
  rewrite ratio_of_spec. simpl bind. rewrite !avg_ok. simpl.
  eexists; split; [reflexivity|]. split; [reflexivity|].
  simpl. tauto.
Qed.


Lemma rev_nonempty {A} (l : list (string * A)) :
  l <> [] -> exists k v rest, rev l = (k, v) :: rest.
Proof.
  intros H. destruct (rev l) as [|[k v] rest] eqn:E.
  - apply (f_equal (@rev _)) in E. rewrite rev_involutive in E. simpl in E. congruence.
  - eauto.
Qed.

Lemma dict_set_nonempty {V} k (v : V) d : dict_set k v d <> [].
Proof. destruct d as [|[k' v'] r]; simpl; [|destruct (String.eqb k k')]; discriminate. Qed.

Lemma dict_set_in {V} k (v : V) d : In k (map fst (dict_set k v d)).
Proof.
  induction d as [|[k' v'] r IH]; simpl; [left; reflexivity|].
  destruct (String.eqb k k') eqn:E; simpl.
  - left. symmetry. apply String.eqb_eq. exact E.
  - right. exact IH.
Qed.

Lemma save_csv_outcome st now fs :
  b_results st <> [] ->
  snd (save_csv st now fs) = if fs_fail fs OpAppend then Some OSError else None.
Proof.
  intros H. destruct (rev_nonempty _ H) as (k & v & rest & Hr).
  destruct (build_row_ok st now k v rest Hr) as (row & Hrow & _).
  unfold save_csv. rewrite Hrow. destruct (fs_fail fs OpAppend); reflexivity.
Qed.

Lemma dict_get_set_same {V} k (v d0 : V) d : dict_get k (dict_set k v d) d0 = v.
Proof.
  induction d as [|[k' v'] r IH]; simpl; [rewrite String.eqb_refl; reflexivity|].
  destruct (String.eqb k k') eqn:E; simpl; rewrite E; [reflexivity|exact IH].
Qed.

Lemma world_detail_rewards pwm raw ds :
  map_result (world_detail pwm) raw = Ok ds ->
  map wd_reward ds = map (fun it => float_or_zero (so_total_reward (snd (fst it)))) raw.
Proof.
  revert ds. induction raw as [|[[w r] ei] raw IH]; intros ds H; cbn [map_result] in H.
  - injection H as <-. reflexivity.
  - rewrite world_detail_spec in H. cbn [bind] in H.
    destruct (map_result (world_detail pwm) raw) as [ds'|e] eqn:E; [|discriminate].
    cbn [bind] in H. injection H as <-. simpl. f_equal. apply IH. reflexivity.
Qed.

Lemma map_result_ok {A B} (f : A -> result B) l :
  (forall x, In x l -> exists y, f x = Ok y) -> exists ys, map_result f l = Ok ys.
Proof.
  induction l as [|x l IH]; simpl; intros H; [eexists; reflexivity|].
  destruct (H x (or_introl eq_refl)) as [y Hy]. rewrite Hy. cbn [bind].
  destruct IH as [ys Hys]; [intros z Hz; apply H; right; exact Hz|].
  rewrite Hys. eexists; reflexivity.
Qed.

Lemma map_result_err {A B} (f : A -> result B) l e :
  map_result f l = Err e -> exists x, In x l /\ f x = Err e.
Proof.
  induction l as [|x l IH]; simpl; intros H; [discriminate|].
  destruct (f x) as [y|e'] eqn:Hx; cbn [bind] in H.
  - destruct (map_result f l) as [ys|e''] eqn:Hl; cbn [bind] in H; [discriminate|].
    injection H as <-. destruct (IH eq_refl) as (z & Hz & Hfz). eauto.
  - injection H as <-. eauto.
Qed.

Lemma py_sum_ok vs :
  (forall v, In v vs -> exists x, json_number v = Ok x) -> exists t, py_sum vs = Ok t.
Proof.
  intros H. destruct (map_result_ok json_number vs H) as [xs Hxs].
  unfold py_sum. rewrite Hxs. eexists; reflexivity.
Qed.

Lemma py_sum_err vs e : py_sum vs = Err e -> e = TypeError.
Proof.
  unfold py_sum. destruct (map_result json_number vs) as [xs|e'] eqn:E; cbn [bind];
    [discriminate|].
  intros [= <-]. destruct (map_result_err _ _ _ E) as (v & _ & Hv).
  destruct v; cbn in Hv; congruence.
Qed.

Lemma finish_outcome st fs path m raw cost now :
  let '(st', fs', out) := finish st fs path m raw cost now in
  out = (if fs_fail fs OpAppend then Raised OSError else Returned) /\
  In path (map fst (b_results st')) /\
  dict_get path (b_results st') 0%float =
    fsum (map (fun it => float_or_zero (so_total_reward (snd (fst it)))) raw).
Proof.
  unfold finish.
  match goal with |- context [map_result (world_detail ?pwm) raw] =>
    destruct (map_result_world_detail_ok pwm raw) as [ds Hds];
    pose proof (world_detail_rewards pwm raw ds Hds) as Hr
  end.
  rewrite Hds. cbv zeta.
  match goal with |- context [save_csv ?s now fs] =>
    pose proof (save_csv_outcome s now fs (dict_set_nonempty _ _ _)) as Hs;
    destruct (save_csv s now fs) as [fs' o] eqn:E
  end.
  simpl in Hs. subst o.
  assert (Hres : In path (map fst (dict_set path (fsum (map wd_reward ds)) (b_results st))) /\
                 dict_get path (dict_set path (fsum (map wd_reward ds)) (b_results st)) 0%float =
                 fsum (map (fun it => float_or_zero (so_total_reward (snd (fst it)))) raw)).
  { split; [apply dict_set_in|]. rewrite dict_get_set_same, Hr. reflexivity. }
  destruct (fs_fail fs OpAppend).
  - split; [reflexivity|exact Hres].
  - destruct (PrimFloat.ltb 0%float m) eqn:Hm.
    + unfold py_truediv. rewrite (ltb_zero_eqb m Hm).
      split; [reflexivity|exact Hres].
    + split; [reflexivity|exact Hres].
Qed.

Lemma execute_item_failure st fs wl solver k max_worlds world_mode cost elapsed now w e :
  (0 < k)%Z -> In w (select_worlds wl world_mode max_worlds) -> load_env_world wl w = Err e ->
  let '(st', fs', out) := execute st fs wl solver k max_worlds world_mode cost elapsed now in
  (exists e', out = Raised e') /\ fs' = fs /\ b_results st' = b_results st /\
  b_world_details st' = b_world_details st.
Proof.
  intros Hk Hw He. unfold execute.
  destruct (fs_fail fs OpMakedirs); [split; [eauto|]; repeat split|]. cbv zeta.
  destruct (load_max_rewards (wl_max_rewards wl)) as [mr|]; [|split; [eauto|]; repeat split].
  match goal with |- context [py_sum ?vs] => destruct (py_sum vs) as [total|e0] end;
    [|split; [eauto|]; repeat split].
  assert (Hk1 : (k <? 0)%Z = false) by (apply Z.ltb_ge; lia).
  assert (Hk2 : (k =? 0)%Z = false) by (apply Z.eqb_neq; lia).
  rewrite Hk1, Hk2. simpl andb. cbv iota.
  destruct (gather_some_err (run_world wl solver) _ w e Hw) as [e' Hg].
  { unfold run_world. rewrite He. reflexivity. }
  rewrite Hg. split; [eauto|]. repeat split.
Qed.

Lemma execute_all_loaded st fs wl solver k max_worlds world_mode cost elapsed now mr :
  (0 < k)%Z ->
  (forall w, In w (select_worlds wl world_mode max_worlds) -> exists x, run_world wl solver w = Ok x) ->
  fs_fail fs OpMakedirs = false ->
  load_max_rewards (wl_max_rewards wl) = Some mr ->
  (forall w, In w (select_worlds wl world_mode max_worlds) ->
     exists x, json_number (dict_get w mr (JNum 0%float)) = Ok x) ->
  let '(st', fs', out) := execute st fs wl solver k max_worlds world_mode cost elapsed now in
  out = (if fs_fail fs OpAppend then Raised OSError else Returned) /\
  exists raw, gather (map (run_world wl solver) (select_worlds wl world_mode max_worlds)) = Ok raw /\
  In (wl_path wl) (map fst (b_results st')) /\
  dict_get (wl_path wl) (b_results st') 0%float =
    fsum (map (fun it => float_or_zero (so_total_reward (snd (fst it)))) raw).
Proof.
  intros Hk Hw Hmk Hmr Hnum. unfold execute. rewrite Hmk, Hmr. cbv zeta.
  destruct (py_sum_ok (map snd (map (fun w => (w, dict_get w mr (JNum 0%float)))
                                  (select_worlds wl world_mode max_worlds)))) as [total Ht].
  { intros v Hv. rewrite map_map in Hv. apply in_map_iff in Hv as (w & <- & Hw').
    exact (Hnum w Hw'). }
  rewrite Ht.
  assert (Hk1 : (k <? 0)%Z = false) by (apply Z.ltb_ge; lia).
  assert (Hk2 : (k =? 0)%Z = false) by (apply Z.eqb_neq; lia).
  rewrite Hk1, Hk2. simpl andb. cbv iota.
  destruct (gather_ok (run_world wl solver) _ Hw) as [raw Hg]. rewrite Hg.
  match goal with |- context [finish ?a ?b ?c ?d ?e ?f ?g] =>
    pose proof (finish_outcome a b c d e f g) as Hf;
    destruct (finish a b c d e f g) as [[st' fs'] out]
  end.
  destruct Hf as (Ho & Hin & Hget). split; [exact Ho|]. exists raw. auto.
Qed.

Lemma execute_not_zde st fs wl solver k max_worlds world_mode cost elapsed now :
  (forall ei, solver ei <> Err ZeroDivisionError) ->
  let '(st', fs', out) := execute st fs wl solver k max_worlds world_mode cost elapsed now in
  out <> Raised ZeroDivisionError.
Proof.
  intros Hs. unfold execute.
  destruct (fs_fail fs OpMakedirs); [discriminate|]. cbv zeta.
  destruct (load_max_rewards (wl_max_rewards wl)) as [mr|]; [|discriminate].
  match goal with |- context [py_sum ?vs] => destruct (py_sum vs) as [total|e0] eqn:Hsum end;
    [|apply py_sum_err in Hsum; subst e0; discriminate].
  destruct (k <? 0)%Z; [discriminate|].
  destruct ((k =? 0)%Z && negb (length (select_worlds wl world_mode max_worlds) =? 0));
    [discriminate|].
  destruct (gather (map (run_world wl solver) (select_worlds wl world_mode max_worlds)))
    as [raw|e] eqn:Hg.
  - match goal with |- context [finish ?a ?b ?c ?d ?e ?f ?g] =>
      pose proof (finish_outcome a b c d e f g) as Hf;
      destruct (finish a b c d e f g) as [[st' fs'] out]
    end.
    destruct Hf as [-> _]. destruct (fs_fail fs OpAppend); discriminate.
  - intros [= ->].
    destruct (gather_err _ _ _ Hg) as (w & _ & Hw).
    destruct (run_world_err _ _ _ _ Hw) as [Hl | (ei & Hei)].
    + exact (load_env_world_not_zde wl w Hl).
    + exact (Hs ei Hei).
Qed.





Lemma find_app {A} (f : A -> bool) l1 l2 :
  find f (l1 ++ l2) = match find f l1 with Some x => Some x | None => find f l2 end.
Proof.
  induction l1 as [|x l1 IH]; simpl; [reflexivity|].
  destruct (f x); [reflexivity|exact IH].
Qed.





Lemma save_csv_file st now fs row :
  build_row st now = Some (Ok row) -> fs_fail fs OpAppend = false ->
  fs_csv (fst (save_csv st now fs)) =
  Some (match migrate_csv (map fst row) fs with Some f => f | None => [] end ++
        match migrate_csv (map fst row) fs with Some (_ :: _) => [] | _ => [map CStr (map fst row)] end ++
        [map (fun p => write_cell (snd p)) row]).
Proof. intros Hrow Ha. unfold save_csv. rewrite Hrow, Ha. reflexivity. Qed.

End BenchFacts.

Module SemaphoreFacts.
Import Semaphore.


Lemma in_flight_split v l1 p l2 :
  in_flight (mkSem v (l1 ++ p :: l2)) =
  length (filter is_running l1) + (if is_running p then 1 else 0) + length (filter is_running l2).
Proof.
  unfold in_flight; simpl. rewrite filter_app, length_app. simpl.
  destruct (is_running p); simpl; lia.
Qed.

Lemma sem_step_inv k n s s' : sem_step s s' -> sem_inv k n s -> sem_inv k n s'.
Proof.
  intros Hs (H1 & H2 & H3). unfold sem_inv in *.
  inversion Hs as [v l1 l2 Hv | v l1 l2 ok]; subst;
    rewrite !in_flight_split in *; cbn [sem_value items is_running] in *;
    repeat rewrite length_app in *; cbn [length] in *; lia.
Qed.

Lemma sem_reach_inv k n s s' :
  clos_refl_trans _ sem_step s s' -> sem_inv k n s -> sem_inv k n s'.
Proof.
  intros H. induction H as [s s' Hs | s | s s1 s' _ IH1 _ IH2]; auto.
  apply sem_step_inv. exact Hs.
Qed.

Lemma sem_init_inv k n s0 : sem_init k n = Some s0 -> sem_inv k n s0.
Proof.
  unfold sem_init. destruct (k <? 0)%Z eqn:Hk; [discriminate|]. intros [= <-].
  apply Z.ltb_ge in Hk. unfold sem_inv, in_flight; simpl.
  assert (H0 : filter is_running (repeat Waiting n) = []).
  { induction n as [|n IH]; simpl; [reflexivity|exact IH]. }
  rewrite H0, repeat_length. simpl. lia.
Qed.

End SemaphoreFacts.

Module LoaderFacts.
Import Bench Loader.

Lemma str_in_In x l : str_in x l = true <-> In x l.
Proof.
  unfold str_in. rewrite existsb_exists. split.
  - intros (y & Hy & E). apply String.eqb_eq in E. subst y. exact Hy.
  - intros H. exists x. split; [exact H|apply String.eqb_refl].
Qed.

Lemma remove_first_absent x l : ~ In x l -> remove_first x l = l.
Proof.
  induction l as [|y l IH]; simpl; intros H; [reflexivity|].
  destruct (String.eqb x y) eqn:E.
  - apply String.eqb_eq in E. subst. exfalso. apply H. left. reflexivity.
  - f_equal. apply IH. intros Hx. apply H. right. exact Hx.
Qed.

Lemma chdir_spec d p :
  In (abspath (cwd p) d) (dirs p) ->
  chdir d p = Ok (mkProc (abspath (cwd p) d) (sys_path p) (dirs p)).
Proof. intros H. unfold chdir. apply str_in_In in H. rewrite H. reflexivity. Qed.

Lemma abspath_canonical c d : canonical d = true -> abspath c d = d.
Proof.
  unfold canonical. intros H. apply String.eqb_eq in H.
  unfold abspath in *. destruct (String.prefix "/" d) eqn:E; [exact H|].
  assert (Hp : String.prefix "/" d = true).
  { rewrite <- H. generalize (String.concat "/" (rev (norm_segs [] (app (split_path "/") (split_path d))))).
    intros [|a r]; reflexivity. }
  congruence.
Qed.

Lemma chdir_ok d p :
  In d (dirs p) -> canonical d = true -> chdir d p = Ok (mkProc d (sys_path p) (dirs p)).
Proof.
  intros H Hc. rewrite chdir_spec; rewrite (abspath_canonical _ _ Hc); [reflexivity|exact H].
Qed.


Lemma load_env_proc_spec env_dir body p :
  In env_dir (dirs p) -> canonical env_dir = true -> canonical (cwd p) = true ->
  In (cwd p) (dirs (fst (body (load_entry env_dir p)))) ->
  let q := fst (body (load_entry env_dir p)) in
  load_env_proc true env_dir body p =
  (mkProc (cwd p) (remove_first env_dir (sys_path q)) (dirs q),
   match snd (body (load_entry env_dir p)) with None => None | Some _ => Some ImportError end).
Proof.
  intros Hd Hcd Hcc Hc q. unfold load_env_proc. simpl negb. cbv iota zeta.
  assert (Hd1 : In env_dir (dirs (if str_in env_dir (sys_path p) then p
                                  else set_sys_path p (env_dir :: sys_path p))))
    by (destruct (str_in env_dir (sys_path p)); exact Hd).
  rewrite (chdir_ok _ _ Hd1 Hcd).
  assert (He : mkProc env_dir (sys_path (if str_in env_dir (sys_path p) then p
                                         else set_sys_path p (env_dir :: sys_path p)))
                 (dirs (if str_in env_dir (sys_path p) then p
                        else set_sys_path p (env_dir :: sys_path p))) = load_entry env_dir p)
    by (unfold load_entry; destruct (str_in env_dir (sys_path p)); reflexivity).
  rewrite He. subst q.
  destruct (body (load_entry env_dir p)) as [q o] eqn:Hb. simpl in *.
  assert (Hmid : (let '(p2, err) := match o with None => (q, None) | Some _ => (q, Some ImportError) end in
       match chdir (cwd p) p2 with
       | Err e => (p2, Some e)
       | Ok p3 => (if str_in env_dir (sys_path p3)
                   then set_sys_path p3 (remove_first env_dir (sys_path p3)) else p3, err)
       end) = (mkProc (cwd p) (remove_first env_dir (sys_path q)) (dirs q),
               match o with None => None | Some _ => Some ImportError end)).
  { destruct o; simpl; rewrite (chdir_ok _ _ Hc Hcc); simpl;
    destruct (str_in env_dir (sys_path q)) eqn:Hs; try reflexivity;
    rewrite remove_first_absent; [reflexivity| |reflexivity|];
    intros Hin; apply str_in_In in Hin; congruence. }
  destruct o; exact Hmid.
Qed.

Lemma wrapper_call_spec {A} env_folder_path (meth : Proc -> Proc * result A) p :
  let d := abspath (cwd p) env_folder_path in
  In d (dirs p) -> canonical (cwd p) = true ->
  In (cwd p) (dirs (fst (meth (mkProc d (sys_path p) (dirs p))))) ->
  let q := fst (meth (mkProc d (sys_path p) (dirs p))) in
  wrapper_call env_folder_path meth p =
  (mkProc (cwd p) (sys_path q) (dirs q), snd (meth (mkProc d (sys_path p) (dirs p)))).
Proof.
  intros d Hd Hcc Hc q. unfold wrapper_call. rewrite (chdir_spec _ _ Hd). fold d.
  subst q. destruct (meth _) as [q r]. simpl in *. rewrite (chdir_ok _ _ Hc Hcc). reflexivity.
Qed.

End LoaderFacts.

(** C10: after [a.add(b)] (and [a >> b]) on nodes built by [add] calls,
    [b] occurs exactly once among the successors of [a] and [a] exactly
    once among the predecessors of [b]; a second [a.add(b)] changes
    nothing; and the edge lists stay mirror images and duplicate-free. *)
Theorem add_edge_consistent g a b :
  Pipeline.built g -> In a (Pipeline.univ g) -> In b (Pipeline.univ g) ->
  let g' := Pipeline.add g a [b] in
  count_occ Nat.eq_dec (Pipeline.successors g' a) b = 1 /\
  count_occ Nat.eq_dec (Pipeline.predecessors g' b) a = 1 /\
  Pipeline.add g' a [b] = g' /\
  Pipeline.built g' /\ Pipeline.wf g'.
Proof.
  intros Hb Ha Hb' g'.
  assert (Hbg' : Pipeline.built g').
  { apply Pipeline.built_add; auto. intros x [<- | []]; exact Hb'. }
  assert (Hw : Pipeline.wf g') by (apply PipelineFacts.built_wf; exact Hbg').
  subst g'. simpl in *.
  split; [|split; [|split; [|split]]]; auto.
  - apply PipelineFacts.NoDup_count_1;
      [apply (Pipeline.wf_succ_nodup _ Hw) | apply PipelineFacts.add_one_in_succ].
  - apply PipelineFacts.NoDup_count_1;
      [apply (Pipeline.wf_pred_nodup _ Hw) | apply PipelineFacts.add_one_in_pred].
  - apply PipelineFacts.add_one_idem.
Qed.

(** C1 (as amended): for an acyclic graph whose nodes reachable from
    [root] have all their declared predecessors reachable from [root]
    too, [run] returns normally; its frontiers hold every reachable node
    exactly once, and each node's predecessors all ran in an earlier,
    completed frontier.  A reachable node with a declared predecessor
    not reachable from [root] never runs, and [run] ends with the
    "Cycle detected" error, whether or not the graph is acyclic. *)
Theorem run_acyclic_complete g root :
  Pipeline.wf g -> In root (Pipeline.univ g) ->
  (Pipeline.acyclic g ->
   (forall x p, Pipeline.reachable g root x -> In p (Pipeline.predecessors g x) ->
      Pipeline.reachable g root p) ->
   exists tr, Pipeline.run g root = Pipeline.RunOk tr /\
     NoDup (concat tr) /\
     (forall x, In x (concat tr) <-> Pipeline.reachable g root x) /\
     Pipeline.ordered g tr) /\
  (forall x p, Pipeline.reachable g root x -> In p (Pipeline.predecessors g x) ->
     ~ Pipeline.reachable g root p ->
     exists tr, Pipeline.run g root = Pipeline.RunCycle tr /\ ~ In x (concat tr)).
Proof.
  intros Hwf Hr.
  destruct (PipelineFacts.run_spec g root Hwf Hr) as (Hnd & Hreach & Hpost).
  split.
  - intros Hac Hpc.
    destruct (Pipeline.run g root) as [tr | tr |] eqn:Hrun; simpl in Hpost.
    + destruct Hpost as (H1 & H2 & H3). exists tr. split; [reflexivity|].
      split; [exact H1|]. split; [|exact H3]. intros x. rewrite H2. apply Hreach.
    + exfalso. destruct Hpost as (H1 & H2 & H3 & (x & Hx & Hx') & H5).
      assert (Hback : forall y, In y (Pipeline.collect_nodes g root) -> ~ In y (concat tr) ->
                exists p, In p (Pipeline.predecessors g y) /\
                  In p (Pipeline.collect_nodes g root) /\ ~ In p (concat tr)).
      { intros y Hy Hy'. destruct (H5 y Hy Hy') as (p & Hp & Hp').
        exists p. split; [exact Hp|]. split; [|exact Hp'].
        apply Hreach. apply (Hpc y p); [apply Hreach; exact Hy | exact Hp]. }
      destruct (PipelineFacts.back_walk g _ _ Hback Hwf
                  (S (length (Pipeline.collect_nodes g root))) [x] x)
        as (z & Hz).
      * simpl. lia.
      * constructor; [intros []|constructor].
      * intros y [<- | []]. exact Hx.
      * intros y [<- | []]. exact Hx'.
      * left; reflexivity.
      * intros y [<- | []]. apply rt_refl.
      * exact (Hac z Hz).
    + destruct Hpost.
  - intros x p Hx Hp Hnp.
    destruct (Pipeline.run g root) as [tr | tr |] eqn:Hrun; simpl in Hpost.
    + exfalso. destruct Hpost as (H1 & H2 & H3). apply Hnp. apply Hreach, H2.
      apply (PipelineFacts.ordered_pred_in g tr x p H3); [|exact Hp].
      apply H2, Hreach, Hx.
    + exists tr. split; [reflexivity|]. destruct Hpost as (H1 & H2 & H3 & _).
      intros Hin. apply Hnp. apply Hreach, H2.
      exact (PipelineFacts.ordered_pred_in g tr x p H3 Hin Hp).
    + destruct Hpost.
Qed.

(** C2: when a node reachable from [root] lies on a cycle, [run]
    terminates with the "Cycle detected" error, and that node is never
    executed. *)
Theorem run_cycle_detected g root x :
  Pipeline.wf g -> In root (Pipeline.univ g) ->
  Pipeline.reachable g root x -> clos_trans nat (Pipeline.step g) x x ->
  exists tr, Pipeline.run g root = Pipeline.RunCycle tr /\ ~ In x (concat tr).
Proof.
  intros Hwf Hr Hx Hc.
  destruct (PipelineFacts.run_spec g root Hwf Hr) as (Hnd & Hreach & Hpost).
  destruct (Pipeline.run g root) as [tr | tr |] eqn:Hrun; simpl in Hpost.
  - exfalso. destruct Hpost as (H1 & H2 & H3).
    apply (PipelineFacts.executed_no_cycle g tr x Hwf H3); [|exact Hc].
    apply H2, Hreach, Hx.
  - exists tr. split; [reflexivity|]. destruct Hpost as (H1 & H2 & H3 & _).
    intros Hin. exact (PipelineFacts.executed_no_cycle g tr x Hwf H3 Hin Hc).
  - destruct Hpost.
Qed.

Lemma add_edge_consistent_witness :
  Pipeline.built (Pipeline.fresh_graph [0; 1]) /\
  let g' := Pipeline.add (Pipeline.fresh_graph [0; 1]) 0 [1] in
  count_occ Nat.eq_dec (Pipeline.successors g' 0) 1 = 1 /\
  count_occ Nat.eq_dec (Pipeline.predecessors g' 1) 0 = 1 /\
  Pipeline.add g' 0 [1] = g' /\
  Pipeline.built g' /\ Pipeline.wf g'.
Proof.
  split; [apply Pipeline.built_fresh|].
  apply (add_edge_consistent (Pipeline.fresh_graph [0; 1]) 0 1);
    [apply Pipeline.built_fresh | simpl; tauto | simpl; tauto].
Defined.

(** C1 as stated, over all acyclic graphs, fails: in [two_sources] the
    node [1] is reachable from [0] but has the predecessor [2], which is
    not; its in-degree never drops to zero and [run] raises the cycle
    error without running it. *)
Lemma run_acyclic_all_counterexample :
  ~ (forall g root,
       Pipeline.wf g -> In root (Pipeline.univ g) -> Pipeline.acyclic g ->
       exists tr, Pipeline.run g root = Pipeline.RunOk tr /\
         NoDup (concat tr) /\
         (forall x, In x (concat tr) <-> Pipeline.reachable g root x) /\
         Pipeline.ordered g tr).
Proof.
  intros H.
  destruct (H Pipeline.two_sources 0) as (tr & Hrun & _).
  - apply PipelineFacts.built_wf, PipelineFacts.two_sources_built.
  - vm_compute. tauto.
  - apply PipelineFacts.two_sources_acyclic.
  - rewrite PipelineFacts.two_sources_run in Hrun. discriminate.
Qed.

Lemma run_acyclic_complete_witness :
  (Pipeline.wf Pipeline.diamond /\ In 0 (Pipeline.univ Pipeline.diamond) /\
   Pipeline.acyclic Pipeline.diamond /\
   (forall x p, Pipeline.reachable Pipeline.diamond 0 x ->
      In p (Pipeline.predecessors Pipeline.diamond x) -> Pipeline.reachable Pipeline.diamond 0 p) /\
   exists tr, Pipeline.run Pipeline.diamond 0 = Pipeline.RunOk tr /\
     NoDup (concat tr) /\
     (forall x, In x (concat tr) <-> Pipeline.reachable Pipeline.diamond 0 x) /\
     Pipeline.ordered Pipeline.diamond tr) /\
  (Pipeline.wf Pipeline.two_sources /\ In 0 (Pipeline.univ Pipeline.two_sources) /\
   Pipeline.reachable Pipeline.two_sources 0 1 /\
   In 2 (Pipeline.predecessors Pipeline.two_sources 1) /\
   ~ Pipeline.reachable Pipeline.two_sources 0 2 /\
   exists tr, Pipeline.run Pipeline.two_sources 0 = Pipeline.RunCycle tr /\ ~ In 1 (concat tr)).
Proof.
  split.
  - split; [exact PipelineFacts.diamond_wf|].
    split; [vm_compute; tauto|].
    split; [exact PipelineFacts.diamond_acyclic|].
    split; [exact PipelineFacts.diamond_pred_closed|].
    assert (Hu : In 0 (Pipeline.univ Pipeline.diamond)) by (vm_compute; tauto).
    apply (proj1 (run_acyclic_complete Pipeline.diamond 0 PipelineFacts.diamond_wf Hu)).
    + exact PipelineFacts.diamond_acyclic.
    + exact PipelineFacts.diamond_pred_closed.
  - assert (Hwf : Pipeline.wf Pipeline.two_sources)
      by exact (PipelineFacts.built_wf _ PipelineFacts.two_sources_built).
    assert (Hu : In 0 (Pipeline.univ Pipeline.two_sources)) by (vm_compute; tauto).
    split; [exact Hwf|]. split; [exact Hu|].
    split; [exact PipelineFacts.two_sources_reach_1|].
    split; [exact PipelineFacts.two_sources_pred_1|].
    split; [exact PipelineFacts.two_sources_unreach_2|].
    exact (proj2 (run_acyclic_complete Pipeline.two_sources 0 Hwf Hu) 1 2
             PipelineFacts.two_sources_reach_1 PipelineFacts.two_sources_pred_1
             PipelineFacts.two_sources_unreach_2).
Defined.

Lemma run_cycle_detected_witness :
  Pipeline.wf Pipeline.cyclic /\ In 0 (Pipeline.univ Pipeline.cyclic) /\
  Pipeline.reachable Pipeline.cyclic 0 1 /\ clos_trans nat (Pipeline.step Pipeline.cyclic) 1 1 /\
  exists tr, Pipeline.run Pipeline.cyclic 0 = Pipeline.RunCycle tr /\ ~ In 1 (concat tr).
Proof.
  split; [apply PipelineFacts.built_wf, PipelineFacts.cyclic_built|].
  split; [vm_compute; tauto|].
  split; [exact PipelineFacts.cyclic_reach_1|].
  split; [exact PipelineFacts.cyclic_cycle_1|].
  apply run_cycle_detected.
  - apply PipelineFacts.built_wf, PipelineFacts.cyclic_built.
  - vm_compute; tauto.
  - exact PipelineFacts.cyclic_reach_1.
  - exact PipelineFacts.cyclic_cycle_1.
Defined.

(** C9: the selection of worlds is deterministic.  [_list_env_worlds]
    returns the level ids of the chosen directory ([val_levels/] for
    ["val"], [levels/] otherwise) in ascending order; with
    [max_worlds = Some n], [n >= 0], exactly the first [n] of them are
    selected (all of them without a bound or when [n] exceeds their
    number); a [world_mode] whose lowercase form is neither ["test"] nor
    ["val"] is treated as ["test"]. *)
Theorem select_worlds_sorted_prefix wl world_mode max_worlds :
  (forall n, max_worlds = Some n -> (0 <= n)%Z) ->
  let mode := Bench.normalize_mode world_mode in
  let ids := Bench.list_env_worlds wl mode in
  Sorted Bench.str_le ids /\
  Permutation ids (Bench.level_ids (if String.eqb mode "val" then Bench.wl_val_levels wl
                                    else Bench.wl_levels wl)) /\
  Bench.select_worlds wl world_mode max_worlds =
    match max_worlds with None => ids | Some n => firstn (Z.to_nat n) ids end /\
  (world_mode = None -> mode = "test"%string) /\
  (forall s, world_mode = Some s ->
     (Bench.lower s = "test"%string \/ Bench.lower s = "val"%string) -> mode = Bench.lower s) /\
  (forall s, world_mode = Some s ->
     Bench.lower s <> "test"%string -> Bench.lower s <> "val"%string -> mode = "test"%string).
Proof.
  intros Hn mode ids.
  split; [apply BenchFacts.sort_strings_sorted|].
  split; [apply BenchFacts.sort_strings_perm|].
  split.
  - unfold Bench.select_worlds. fold mode. fold ids.
    destruct max_worlds as [n|]; [|reflexivity].
    apply BenchFacts.py_prefix_nonneg. apply Hn. reflexivity.
  - split; [intros ->; reflexivity|].
    split; intros s ->; [apply BenchFacts.normalize_mode_kept | apply BenchFacts.normalize_mode_other].
Qed.

(** C5: [ratio_of] gives [total / max] when [max] is nonzero and [None]
    when it is zero, without dividing by zero; the per-world record
    carries [reward / max_reward] or [None] in the same way; the report
    row always gets built, with that ratio for the batch; and no run of
    [execute] raises [ZeroDivisionError] unless the solver does. *)
Theorem ratio_never_divides_by_zero :
  (forall t m, Bench.ratio_of t m =
     Bench.Ok (if PrimFloat.eqb m 0%float then None else Some (t / m)%float)) /\
  (forall pwm w r ei,
     exists d, Bench.world_detail pwm (w, r, ei) = Bench.Ok d /\
       Bench.wd_ratio d =
         (if PrimFloat.eqb (Bench.dict_get w pwm 0%float) 0%float then None
          else Some (Bench.float_or_zero (Bench.so_total_reward r) / Bench.dict_get w pwm 0%float)%float)) /\
  (forall st now env_path v rest,
     rev (Bench.b_results st) = (env_path, v) :: rest ->
     exists row, Bench.build_row st now = Some (Bench.Ok row) /\
       In ("ratio"%string,
           Bench.opt_float_cell
             (let t := Bench.float_or_zero (Some (Bench.dict_get env_path (Bench.b_results st) 0%float)) in
              let m := Bench.float_or_zero (Some (Bench.dict_get env_path (Bench.b_max_rewards st) 0%float)) in
              if PrimFloat.eqb m 0%float then None else Some (t / m)%float)) row) /\
  (forall st fs wl solver k max_worlds world_mode cost elapsed now,
     (forall ei, solver ei <> Bench.Err Bench.ZeroDivisionError) ->
     let '(_, _, out) := Bench.execute st fs wl solver k max_worlds world_mode cost elapsed now in
     out <> Bench.Raised Bench.ZeroDivisionError).
Proof.
  split; [exact BenchFacts.ratio_of_spec|].
  split.
  - intros pwm w r ei. eexists. split; [apply BenchFacts.world_detail_spec|reflexivity].
  - split.
    + intros st now env_path v rest H.
      destruct (BenchFacts.build_row_ok st now env_path v rest H) as (row & H1 & _ & H3).
      exists row. split; assumption.
    + exact BenchFacts.execute_not_zde.
Qed.

(** C3 (as amended): when the level of one selected world cannot be
    loaded and [world_concurrency >= 1], [execute] raises: the file
    system is untouched (no report row), and neither [results] nor
    [world_details] is updated, so no record exists for any world of the
    batch. *)
Theorem execute_world_failure_aborts st fs wl solver k max_worlds world_mode cost elapsed now w e :
  (0 < k)%Z -> In w (Bench.select_worlds wl world_mode max_worlds) ->
  Bench.load_env_world wl w = Bench.Err e ->
  let '(st', fs', out) := Bench.execute st fs wl solver k max_worlds world_mode cost elapsed now in
  (exists e', out = Bench.Raised e') /\ fs' = fs /\
  Bench.b_results st' = Bench.b_results st /\ Bench.b_world_details st' = Bench.b_world_details st.
Proof. apply BenchFacts.execute_item_failure. Qed.

(** C3 as stated fails: of the five levels of [maze], [level_03.yaml] is
    not valid YAML; [execute] raises the level error instead of recording
    a zero reward for it, writes no report and stores no batch total. *)
Lemma execute_world_failure_counterexample :
  let '(st', fs', out) :=
    Bench.execute (Bench.empty_bench "gpt-4o") (Bench.mkFs None Scenarios.no_failure)
      (Scenarios.maze Bench.YamlMalformed) Scenarios.steady_solver 2 None None None
      1.5%float Scenarios.now in
  out = Bench.Raised (Bench.ValueError Bench.LevelMissingOrInvalid) /\
  Bench.fs_csv fs' = None /\ Bench.b_results st' = [] /\ Bench.b_world_details st' = [].
Proof. vm_compute. repeat split. Qed.

Lemma execute_world_failure_aborts_witness :
  (0 < 2)%Z /\ In "level_03"%string (Bench.select_worlds (Scenarios.maze Bench.YamlMalformed) None None) /\
  Bench.load_env_world (Scenarios.maze Bench.YamlMalformed) "level_03" =
    Bench.Err (Bench.ValueError Bench.LevelMissingOrInvalid) /\
  let '(st', fs', out) :=
    Bench.execute (Bench.empty_bench "gpt-4o") (Bench.mkFs None Scenarios.no_failure)
      (Scenarios.maze Bench.YamlMalformed) Scenarios.steady_solver 2 None None None
      1.5%float Scenarios.now in
  (exists e', out = Bench.Raised e') /\ fs' = Bench.mkFs None Scenarios.no_failure /\
  Bench.b_results st' = Bench.b_results (Bench.empty_bench "gpt-4o") /\
  Bench.b_world_details st' = Bench.b_world_details (Bench.empty_bench "gpt-4o").
Proof.
  split; [lia|]. split; [vm_compute; tauto|]. split; [vm_compute; reflexivity|].
  apply (execute_world_failure_aborts (Bench.empty_bench "gpt-4o") (Bench.mkFs None Scenarios.no_failure)
           (Scenarios.maze Bench.YamlMalformed) Scenarios.steady_solver 2 None None None
           1.5%float Scenarios.now "level_03" (Bench.ValueError Bench.LevelMissingOrInvalid)).
  - lia.
  - vm_compute; tauto.
  - vm_compute; reflexivity.
Defined.

Lemma select_worlds_sorted_prefix_witness :
  (forall n, Some 3%Z = Some n -> (0 <= n)%Z) /\
  Bench.select_worlds (Scenarios.maze Bench.YamlOk) (Some "TEST"%string) (Some 3%Z) =
    ["level_01"; "level_02"; "level_03"]%string /\
  Bench.select_worlds (Scenarios.maze Bench.YamlOk) (Some "TEST"%string) (Some 3%Z) =
    firstn 3 (Bench.list_env_worlds (Scenarios.maze Bench.YamlOk)
                (Bench.normalize_mode (Some "TEST"%string))).
Proof.
  split; [intros n [= <-]; lia|]. split; [vm_compute; reflexivity|].
  destruct (select_worlds_sorted_prefix (Scenarios.maze Bench.YamlOk) (Some "TEST"%string) (Some 3%Z))
    as (_ & _ & H & _).
  - intros n [= <-]. lia.
  - exact H.
Defined.

Lemma ratio_never_divides_by_zero_witness :
  (forall ei, Scenarios.steady_solver ei <> Bench.Err Bench.ZeroDivisionError) /\
  let '(_, _, out) :=
    Bench.execute (Bench.empty_bench "gpt-4o") (Bench.mkFs None Scenarios.no_failure)
      (Scenarios.maze Bench.YamlOk) Scenarios.steady_solver 2 None None None
      1.5%float Scenarios.now in
  out <> Bench.Raised Bench.ZeroDivisionError.
Proof.
  split; [intros ei; discriminate|].
  destruct ratio_never_divides_by_zero as (_ & _ & _ & H).
  apply H. intros ei; discriminate.
Defined.

(** C7 (as amended): when the result folders can be created,
    [level_max_rewards.json] is well formed with a number for each
    selected world, every selected world loads and solves and
    [world_concurrency >= 1], [execute] stores the batch total (the sum of
    the worlds' rewards) in [results] and then returns normally if
    appending the report row succeeds, but raises the [OSError] of the
    append when it fails: the append is not guarded. *)
Theorem execute_append_failure_propagates st fs wl solver k max_worlds world_mode cost elapsed now mr :
  (0 < k)%Z ->
  (forall w, In w (Bench.select_worlds wl world_mode max_worlds) ->
     exists x, Bench.run_world wl solver w = Bench.Ok x) ->
  Bench.fs_fail fs Bench.OpMakedirs = false ->
  Bench.load_max_rewards (Bench.wl_max_rewards wl) = Some mr ->
  (forall w, In w (Bench.select_worlds wl world_mode max_worlds) ->
     exists x, Bench.json_number (Bench.dict_get w mr (Bench.JNum 0%float)) = Bench.Ok x) ->
  let '(st', fs', out) := Bench.execute st fs wl solver k max_worlds world_mode cost elapsed now in
  out = (if Bench.fs_fail fs Bench.OpAppend then Bench.Raised Bench.OSError else Bench.Returned) /\
  exists raw,
    Bench.gather (map (Bench.run_world wl solver) (Bench.select_worlds wl world_mode max_worlds)) =
      Bench.Ok raw /\
    In (Bench.wl_path wl) (map fst (Bench.b_results st')) /\
    Bench.dict_get (Bench.wl_path wl) (Bench.b_results st') 0%float =
      Bench.fsum (map (fun it => Bench.float_or_zero (Bench.so_total_reward (snd (fst it)))) raw).
Proof. apply BenchFacts.execute_all_loaded. Qed.

(** C7 as stated fails: on [maze] with five valid levels, when the
    append to the report file fails, [execute] raises [OSError] (after
    storing the total [5.0] in [results]). *)
Lemma execute_append_failure_counterexample :
  let '(st', fs', out) :=
    Bench.execute (Bench.empty_bench "gpt-4o") (Bench.mkFs None Scenarios.append_fails)
      (Scenarios.maze Bench.YamlOk) Scenarios.steady_solver 2 None None None
      1.5%float Scenarios.now in
  out = Bench.Raised Bench.OSError /\ Bench.b_results st' = [("envs/maze"%string, 5%float)].
Proof. vm_compute. split; reflexivity. Qed.

Lemma execute_append_failure_propagates_witness :
  let '(st', fs', out) :=
    Bench.execute (Bench.empty_bench "gpt-4o") (Bench.mkFs None Scenarios.append_fails)
      (Scenarios.maze Bench.YamlOk) Scenarios.steady_solver 2 None None None
      1.5%float Scenarios.now in
  out = Bench.Raised Bench.OSError /\
  Bench.dict_get "envs/maze" (Bench.b_results st') 0%float = 5%float.
Proof.
  assert (Hw : forall w, In w (Bench.select_worlds (Scenarios.maze Bench.YamlOk) None None) ->
     exists x, Bench.run_world (Scenarios.maze Bench.YamlOk) Scenarios.steady_solver w = Bench.Ok x).
  { intros w Hw. vm_compute in Hw.
    repeat destruct Hw as [<- | Hw]; try destruct Hw; eexists; vm_compute; reflexivity. }
  assert (Hn : forall w, In w (Bench.select_worlds (Scenarios.maze Bench.YamlOk) None None) ->
     exists x, Bench.json_number (Bench.dict_get w Scenarios.maze_max_rewards (Bench.JNum 0%float)) =
               Bench.Ok x).
  { intros w Hw'. vm_compute in Hw'.
    repeat destruct Hw' as [<- | Hw']; try destruct Hw'; eexists; vm_compute; reflexivity. }
  pose proof (execute_append_failure_propagates (Bench.empty_bench "gpt-4o")
                (Bench.mkFs None Scenarios.append_fails) (Scenarios.maze Bench.YamlOk)
                Scenarios.steady_solver 2 None None None 1.5%float Scenarios.now
                Scenarios.maze_max_rewards) as H.
  specialize (H ltac:(lia) Hw eq_refl ltac:(vm_compute; reflexivity) Hn).
  destruct (Bench.execute _ _ _ _ _ _ _ _ _ _) as [[st' fs'] out].
  destruct H as (Ho & raw & Hg & _ & Hget). split; [rewrite Ho; reflexivity|].
  change "envs/maze"%string with (Bench.wl_path (Scenarios.maze Bench.YamlOk)).
  rewrite Hget. vm_compute in Hg. injection Hg as <-. vm_compute. reflexivity.
Defined.




(** C4: for a batch of [n] worlds and [world_concurrency = k], in every
    state the event loop can reach, at most [k] worlds are in flight:
    the semaphore's value stays non-negative and adds up with the number
    of worlds in flight to [k].  A running world can always leave the
    [async with] block, successfully or not, releasing the semaphore. *)
Theorem semaphore_bounds_in_flight k n s0 s :
  Semaphore.sem_init k n = Some s0 ->
  clos_refl_trans _ Semaphore.sem_step s0 s ->
  (Z.of_nat (Semaphore.in_flight s) <= k)%Z /\ (0 <= Semaphore.sem_value s)%Z /\
  (Semaphore.sem_value s + Z.of_nat (Semaphore.in_flight s) = k)%Z /\
  length (Semaphore.items s) = n /\
  (forall l1 l2 ok, Semaphore.items s = l1 ++ Semaphore.Running :: l2 ->
     Semaphore.sem_step s (Semaphore.mkSem (Semaphore.sem_value s + 1)
                             (l1 ++ Semaphore.Finished ok :: l2))).
Proof.
  intros Hi Hr.
  destruct (SemaphoreFacts.sem_reach_inv k n s0 s Hr (SemaphoreFacts.sem_init_inv k n s0 Hi))
    as (H1 & H2 & H3).
  split; [lia|]. split; [exact H1|]. split; [exact H2|]. split; [exact H3|].
  intros l1 l2 ok Hs. destruct s as [v items]. simpl in *. subst items.
  apply Semaphore.step_release.
Qed.

Lemma semaphore_bounds_in_flight_witness :
  Semaphore.sem_init 2 3 =
    Some (Semaphore.mkSem 2 [Semaphore.Waiting; Semaphore.Waiting; Semaphore.Waiting]) /\
  clos_refl_trans _ Semaphore.sem_step
    (Semaphore.mkSem 2 [Semaphore.Waiting; Semaphore.Waiting; Semaphore.Waiting])
    (Semaphore.mkSem 1 [Semaphore.Finished false; Semaphore.Running; Semaphore.Waiting]) /\
  (Z.of_nat (Semaphore.in_flight
     (Semaphore.mkSem 1 [Semaphore.Finished false; Semaphore.Running; Semaphore.Waiting])) <= 2)%Z.
Proof.
  assert (Hr : clos_refl_trans _ Semaphore.sem_step
    (Semaphore.mkSem 2 [Semaphore.Waiting; Semaphore.Waiting; Semaphore.Waiting])
    (Semaphore.mkSem 1 [Semaphore.Finished false; Semaphore.Running; Semaphore.Waiting])).
  { apply rt_trans with (Semaphore.mkSem 1 [Semaphore.Running; Semaphore.Waiting; Semaphore.Waiting]).
    { apply rt_step.
      exact (Semaphore.step_acquire 2 [] [Semaphore.Waiting; Semaphore.Waiting] ltac:(lia)). }
    apply rt_trans with (Semaphore.mkSem 0 [Semaphore.Running; Semaphore.Running; Semaphore.Waiting]).
    { apply rt_step.
      exact (Semaphore.step_acquire 1 [Semaphore.Running] [Semaphore.Waiting] ltac:(lia)). }
    apply rt_step.
    exact (Semaphore.step_release 0 [] [Semaphore.Running; Semaphore.Waiting] false). }
  split; [reflexivity|]. split; [exact Hr|].
  apply (semaphore_bounds_in_flight 2 3
           (Semaphore.mkSem 2 [Semaphore.Waiting; Semaphore.Waiting; Semaphore.Waiting]) _
           eq_refl Hr).
Defined.

(** C8: if the resolved environment directory exists and the prior
    working directory still exists after the module body ran,
    [_load_env] runs the body in the environment directory and comes
    back to the prior working directory whether the body succeeds or
    raises (raising [ImportError] exactly when the body raises).  It then
    removes the first occurrence of the directory from [sys.path], which
    gives back the prior [sys.path] when the directory was not on it and
    the body left [sys.path] alone.  A call through [EnvWrapper] runs the
    method in the directory [env_folder_path] names from the working
    directory of the call, and comes back to that working directory,
    with the method's result or exception. *)
Theorem load_env_restores_cwd env_dir body p {A} env_folder_path (meth : Loader.Proc -> Loader.Proc * Bench.result A) :
  In env_dir (Loader.dirs p) -> Loader.canonical env_dir = true ->
  Loader.canonical (Loader.cwd p) = true ->
  In (Loader.cwd p) (Loader.dirs (fst (body (Loader.load_entry env_dir p)))) ->
  let d := Loader.abspath (Loader.cwd p) env_folder_path in
  In d (Loader.dirs p) ->
  In (Loader.cwd p) (Loader.dirs (fst (meth (Loader.mkProc d (Loader.sys_path p) (Loader.dirs p))))) ->
  let q := fst (body (Loader.load_entry env_dir p)) in
  let '(p', err) := Loader.load_env_proc true env_dir body p in
  Loader.cwd (Loader.load_entry env_dir p) = env_dir /\
  Loader.cwd p' = Loader.cwd p /\
  Loader.sys_path p' = Loader.remove_first env_dir (Loader.sys_path q) /\
  err = match snd (body (Loader.load_entry env_dir p)) with
        | None => None
        | Some _ => Some Bench.ImportError
        end /\
  (Loader.sys_path q = Loader.sys_path (Loader.load_entry env_dir p) ->
   ~ In env_dir (Loader.sys_path p) -> Loader.sys_path p' = Loader.sys_path p) /\
  let '(pw, r) := Loader.wrapper_call env_folder_path meth p in
  Loader.cwd pw = Loader.cwd p /\
  r = snd (meth (Loader.mkProc d (Loader.sys_path p) (Loader.dirs p))).
Proof.
  intros Hd Hcd Hcc Hc d Hf Hm q.
  rewrite (LoaderFacts.load_env_proc_spec env_dir body p Hd Hcd Hcc Hc). fold q.
  rewrite (LoaderFacts.wrapper_call_spec env_folder_path meth p Hf Hcc Hm).
  simpl. split; [reflexivity|]. split; [reflexivity|]. split; [reflexivity|].
  split; [reflexivity|].
  split; [|split; reflexivity].
  intros Hq Hn. rewrite Hq. unfold Loader.load_entry. simpl.
  destruct (Loader.str_in env_dir (Loader.sys_path p)) eqn:Hs.
  - apply LoaderFacts.str_in_In in Hs. contradiction.
  - simpl. rewrite String.eqb_refl. reflexivity.
Qed.

(** C8 fails for the code: [_load_env] does not restore [sys.path].
    When the directory was already on [sys.path] before the call, the
    [finally] clause removes that entry, although [_load_env] did not
    insert it.  When the module body puts its own directory on
    [sys.path] (as scripts of the environment folders do), only one
    occurrence is removed and the directory stays on [sys.path]. *)
Lemma load_env_restores_cwd_counterexample :
  Loader.sys_path (fst (Loader.load_env_proc true "/envs/maze"
                          ProcScenarios.body_ok ProcScenarios.proc_on_path)) <>
    Loader.sys_path ProcScenarios.proc_on_path /\
  In "/envs/maze"%string
     (Loader.sys_path (fst (Loader.load_env_proc true "/envs/maze"
                              ProcScenarios.body_adds_own_dir ProcScenarios.proc0))).
Proof.
  split.
  - intros H. vm_compute in H. discriminate H.
  - vm_compute. right. left. reflexivity.
Qed.

Lemma load_env_restores_cwd_witness :
  (let '(p', err) := Loader.load_env_proc true "/envs/maze" ProcScenarios.body_raises ProcScenarios.proc0 in
   Loader.cwd p' = "/work"%string /\ err = Some Bench.ImportError /\
   Loader.sys_path p' = ["/usr/lib/python3"%string]) /\
  (let '(pw, r) := Loader.wrapper_call "../envs/maze" ProcScenarios.meth_cwd ProcScenarios.proc0 in
   Loader.cwd pw = "/work"%string /\ r = Bench.Ok "/envs/maze"%string).
Proof.
  pose proof (load_env_restores_cwd "/envs/maze" ProcScenarios.body_raises ProcScenarios.proc0
                "../envs/maze" ProcScenarios.meth_cwd) as H.
  assert (Hd : In "/envs/maze"%string (Loader.dirs ProcScenarios.proc0)) by (vm_compute; tauto).
  assert (Hcd : Loader.canonical "/envs/maze" = true) by (vm_compute; reflexivity).
  assert (Hcc : Loader.canonical (Loader.cwd ProcScenarios.proc0) = true) by (vm_compute; reflexivity).
  assert (Hc : In (Loader.cwd ProcScenarios.proc0)
                  (Loader.dirs (fst (ProcScenarios.body_raises
                                       (Loader.load_entry "/envs/maze" ProcScenarios.proc0)))))
    by (vm_compute; tauto).
  assert (Hf : In (Loader.abspath (Loader.cwd ProcScenarios.proc0) "../envs/maze")
                  (Loader.dirs ProcScenarios.proc0)) by (vm_compute; tauto).
  assert (Hm : In (Loader.cwd ProcScenarios.proc0)
                  (Loader.dirs (fst (ProcScenarios.meth_cwd
                     (Loader.mkProc (Loader.abspath (Loader.cwd ProcScenarios.proc0) "../envs/maze")
                                    (Loader.sys_path ProcScenarios.proc0)
                                    (Loader.dirs ProcScenarios.proc0))))))
    by (vm_compute; tauto).
  specialize (H Hd Hcd Hcc Hc Hf Hm). vm_compute in H. vm_compute.
  destruct H as (_ & H1 & H2 & H3 & H4 & H5 & H6).
  split; [split; [exact H1|split; [exact H3|]]|split; [exact H5|exact H6]].
  apply H4; [reflexivity|]. intros [Hx | []]. discriminate.
Defined.

(* ================================================================= *)
(** ** Further properties of the code *)

Module StringFacts.

Lemma length_append x y : String.length (String.append x y) = String.length x + String.length y.
Proof. induction x; simpl; auto. Qed.

Lemma append_inj x x' y y' :
  String.length x = String.length x' -> String.append x y = String.append x' y' -> x = x' /\ y = y'.
Proof.
  revert x'. induction x as [|c x IH]; intros [|c' x'] Hl He; simpl in *; try discriminate.
  - split; [reflexivity | exact He].
  - injection He as -> He. injection Hl as Hl. destruct (IH x' Hl He) as [-> ->]. split; reflexivity.
Qed.

Lemma substring_app_l x y : substring 0 (String.length x) (String.append x y) = x.
Proof. induction x as [|c x IH]; simpl; [destruct y; reflexivity|]. rewrite IH. reflexivity. Qed.

End StringFacts.

Module PipelineExtra.
Import Pipeline PipelineFacts StringFacts.

Lemma run_loop_prefix g nodes fuel :
  forall E deg acc,
  match run_loop g nodes fuel E deg acc with
  | RunOk tr | RunCycle tr => exists rest, tr = rev acc ++ rest
  | RunStuck => True
  end.
Proof.
  induction fuel as [|f IH]; intros E deg acc; simpl; [exact I|].
  destruct (length E <? length nodes).
  - destruct (ready_of nodes E deg) as [|r rs] eqn:Hr.
    + exists []. rewrite app_nil_r. reflexivity.
    + match goal with |- context [mark_round ?a ?b ?c ?d] =>
        destruct (mark_round a b c d) as [E' d'] end.
      specialize (IH E' d' ((r :: rs) :: acc)).
      destruct (run_loop g nodes f E' d' ((r :: rs) :: acc)); [| |exact I];
        destruct IH as [rest ->]; exists ((r :: rs) :: rest); simpl;
        rewrite <- app_assoc; reflexivity.
  - exists []. rewrite app_nil_r. reflexivity.
Qed.

Lemma sourceless_reachable g root x :
  wf g -> reachable g root x -> predecessors g x = [] -> x = root.
Proof.
  intros Hwf H Hp. apply clos_rt_rtn1_iff in H. destruct H as [|y z Hyz _]; [reflexivity|].
  apply (wf_sym _ Hwf) in Hyz. rewrite Hp in Hyz. destruct Hyz.
Qed.

Lemma filter_none {A} (f : A -> bool) (l : list A) :
  (forall x, In x l -> f x = false) -> filter f l = [].
Proof.
  induction l as [|a l IH]; intros Hf; simpl; [reflexivity|].
  rewrite (Hf a (or_introl eq_refl)). apply IH. intros x Hx. apply Hf. right. exact Hx.
Qed.

Lemma filter_only {A} (f : A -> bool) (l : list A) r :
  NoDup l -> In r l -> (forall x, In x l -> f x = true <-> x = r) -> filter f l = [r].
Proof.
  induction l as [|a l IH]; intros Hnd Hin Hf; [destruct Hin|].
  inversion Hnd as [|? ? Hna Hnd']; subst. simpl.
  destruct Hin as [-> | Hin].
  - rewrite (proj2 (Hf r (or_introl eq_refl)) eq_refl). f_equal.
    apply filter_none. intros x Hx. destruct (f x) eqn:E; [|reflexivity].
    apply (Hf x (or_intror Hx)) in E. subst. contradiction.
  - destruct (f a) eqn:E.
    + apply (Hf a (or_introl eq_refl)) in E. subst. contradiction.
    + apply IH; auto. intros x Hx. apply Hf. right. exact Hx.
Qed.

Lemma run_unfold g root :
  In root (collect_nodes g root) ->
  run g root =
  match ready_of (collect_nodes g root) [] (init_deg g) with
  | [] => RunCycle []
  | ready => let '(e, d) := mark_round g ready [] (init_deg g) in
             run_loop g (collect_nodes g root) (length (collect_nodes g root)) e d [ready]
  end.
Proof.
  intros Hin. unfold run. cbn [run_loop].
  destruct (length [] <? length (collect_nodes g root)) eqn:E.
  - reflexivity.
  - apply Nat.ltb_nlt in E. destruct (collect_nodes g root); [destruct Hin | simpl in E; lia].
Qed.

(** X1: [run] starts from the root alone.  If the root has no
    predecessors, the first frontier of the trace is exactly [[root]],
    whether the run completes or stops on a cycle; if the root has a
    predecessor, nothing is ready and [run] reports a cycle with an empty
    trace. *)
Theorem run_first_frontier g root :
  wf g -> In root (univ g) ->
  (predecessors g root = [] ->
     exists rest, run g root = RunOk ([root] :: rest) \/ run g root = RunCycle ([root] :: rest)) /\
  (predecessors g root <> [] -> run g root = RunCycle []).
Proof.
  intros Hwf Hr.
  destruct (run_spec g root Hwf Hr) as (Hnd & Hreach & Hpost).
  assert (Hroot : In root (collect_nodes g root)) by (apply Hreach; apply rt_refl).
  rewrite (run_unfold g root Hroot) in Hpost |- *.
  assert (Hsrc : forall x,
            (init_deg g x =? 0)%Z && negb (mem x []) = true <-> predecessors g x = []).
  { intros x. unfold init_deg. simpl. rewrite andb_true_r, Z.eqb_eq.
    destruct (predecessors g x); simpl; split; intros; try lia; congruence. }
  split.
  - intros Hp0.
    assert (Hf : ready_of (collect_nodes g root) [] (init_deg g) = [root]).
    { apply filter_only; auto. intros x Hx. rewrite Hsrc. split.
      - intros Hp. exact (sourceless_reachable g root x Hwf (proj1 (Hreach x) Hx) Hp).
      - intros ->. exact Hp0. }
    rewrite Hf in Hpost |- *. cbv zeta in Hpost |- *. destruct (mark_round g [root] [] (init_deg g)) as [E' d'].
    pose proof (run_loop_prefix g (collect_nodes g root) (length (collect_nodes g root))
                  E' d' [[root]]) as Hpre.
    destruct (run_loop g (collect_nodes g root) (length (collect_nodes g root)) E' d' [[root]])
      as [tr|tr|]; [| |exact (False_ind _ Hpost)];
      destruct Hpre as [rest ->]; exists rest; auto.
  - intros Hp0.
    unfold ready_of. rewrite filter_none; [reflexivity|]. intros x Hx.
    destruct ((init_deg g x =? 0)%Z && negb (mem x [])) eqn:Ex; [|reflexivity].
    apply Hsrc in Ex.
    pose proof (sourceless_reachable g root x Hwf (proj1 (Hreach x) Hx) Ex). subst. contradiction.
Qed.

Lemma run_first_frontier_witness :
  (exists rest, run two_sources 0 = RunOk ([0] :: rest) \/ run two_sources 0 = RunCycle ([0] :: rest)) /\
  run cyclic 1 = RunCycle [].
Proof.
  split.
  - apply (run_first_frontier two_sources 0 (built_wf _ two_sources_built)); [vm_compute; tauto|reflexivity].
  - apply (run_first_frontier cyclic 1 (built_wf _ cyclic_built)); [vm_compute; tauto|vm_compute; discriminate].
Defined.

Section Visualize.
Variable g : Graph.
Variable name : nat -> string.
Hypothesis Hwf : wf g.
Hypothesis Hlen : forall x, In x (univ g) -> String.length (name x) = 8.
Hypothesis Hinj : forall x y, In x (univ g) -> In y (univ g) -> name x = name y -> x = y.

Lemma edge_line_inj p n p' n' :
  In p (univ g) -> In n (univ g) -> In p' (univ g) -> In n' (univ g) ->
  edge_line name p n = edge_line name p' n' -> p = p' /\ n = n'.
Proof.
  intros Hp Hn Hp' Hn' He. unfold edge_line in He.
  injection He as He.
  destruct (append_inj _ _ _ _ (eq_trans (Hlen p Hp) (eq_sym (Hlen p' Hp'))) He) as [Ep He'].
  injection He' as He'.
  split; apply Hinj; assumption.
Qed.

Lemma node_line_not_edge n p n' :
  In n (univ g) -> In p (univ g) -> In n' (univ g) -> node_line name n <> edge_line name p n'.
Proof.
  intros Hn Hp Hn' He. apply (f_equal String.length) in He. unfold node_line, edge_line in He.
  rewrite !length_append in He. rewrite (Hlen n Hn), (Hlen p Hp), (Hlen n' Hn') in He.
  simpl in He. lia.
Qed.

Lemma node_line_inj n n' :
  In n (univ g) -> In n' (univ g) -> node_line name n = node_line name n' -> n = n'.
Proof.
  intros Hn Hn' He. unfold node_line in He. injection He as He. apply Hinj; assumption.
Qed.

Lemma count_map_edges (l : list nat) n p n' :
  NoDup l -> incl l (univ g) -> In n (univ g) -> In p (univ g) -> In n' (univ g) ->
  count_occ string_dec (map (fun q => edge_line name q n) l) (edge_line name p n') =
  if Nat.eqb n n' && mem p l then 1 else 0.
Proof.
  induction l as [|q l IH]; intros Hnd Hl Hn Hp Hn'; cbn [map count_occ mem existsb];
    [destruct (Nat.eqb n n'); reflexivity|].
  inversion Hnd as [|? ? Hq Hnd']; subst.
  assert (Hqu : In q (univ g)) by (apply Hl; left; reflexivity).
  rewrite IH by (auto; intros x Hx; apply Hl; right; exact Hx).
  destruct (string_dec (edge_line name q n) (edge_line name p n')) as [E | E].
  - destruct (edge_line_inj _ _ _ _ Hqu Hn Hp Hn' E) as [<- <-].
    rewrite Nat.eqb_refl. simpl. rewrite Nat.eqb_refl. simpl.
    destruct (mem q l) eqn:Em; [apply mem_In in Em; contradiction | reflexivity].
  - destruct (Nat.eqb n n') eqn:En; simpl; [|reflexivity].
    apply Nat.eqb_eq in En. subst n'.
    destruct (Nat.eqb p q) eqn:Epq; simpl; [|reflexivity].
    apply Nat.eqb_eq in Epq. subst q. contradiction.
Qed.

Lemma count_node_line_edges (l : list nat) n p n' :
  In n (univ g) -> In p (univ g) -> In n' (univ g) ->
  count_occ string_dec (if Nat.eqb (length l) 0 then [node_line name n] else []) (edge_line name p n') = 0.
Proof.
  intros Hn Hp Hn'. destruct (Nat.eqb (length l) 0); cbn [count_occ]; [|reflexivity].
  destruct (string_dec (node_line name n) (edge_line name p n')) as [E|E]; [|reflexivity].
  exfalso. exact (node_line_not_edge n p n' Hn Hp Hn' E).
Qed.

Lemma count_map_node (l : list nat) n n' :
  incl l (univ g) -> In n (univ g) -> In n' (univ g) ->
  count_occ string_dec (map (fun q => edge_line name q n) l) (node_line name n') = 0.
Proof.
  induction l as [|q l IH]; intros Hl Hn Hn'; cbn [map count_occ]; [reflexivity|].
  rewrite IH by (auto; intros x Hx; apply Hl; right; exact Hx).
  destruct (string_dec (edge_line name q n) (node_line name n')) as [E|E]; [|reflexivity].
  exfalso. symmetry in E. exact (node_line_not_edge n' q n Hn' (Hl q (or_introl eq_refl)) Hn E).
Qed.

Lemma reachable_univ root x : In root (univ g) -> reachable g root x -> In x (univ g).
Proof.
  intros Hr H. apply clos_rt_rt1n_iff in H.
  induction H as [|a b c Hab _ IH]; [exact Hr|].
  apply IH. exact (wf_succ_closed _ Hwf a b Hr Hab).
Qed.

Lemma count_flat_edges (nodes : list nat) p n' :
  NoDup nodes -> incl nodes (univ g) -> In p (univ g) -> In n' (univ g) ->
  count_occ string_dec (flat_map (node_lines g name) nodes) (edge_line name p n') =
  if mem n' nodes && mem p (predecessors g n') then 1 else 0.
Proof.
  induction nodes as [|n nodes IH]; intros Hnd Hl Hp Hn'; cbn [flat_map]; [reflexivity|].
  change (mem n' (n :: nodes)) with (Nat.eqb n' n || mem n' nodes).
  inversion Hnd as [|? ? Hn Hnd']; subst.
  assert (Hnu : In n (univ g)) by (apply Hl; left; reflexivity).
  rewrite count_occ_app. rewrite IH by (auto; intros x Hx; apply Hl; right; exact Hx).
  unfold node_lines. rewrite count_occ_app.
  rewrite (count_node_line_edges _ n p n' Hnu Hp Hn').
  rewrite (count_map_edges _ n p n' (wf_pred_nodup _ Hwf n)
             (fun x Hx => wf_pred_closed _ Hwf n x Hnu Hx) Hnu Hp Hn').
  rewrite (Nat.eqb_sym n n').
  destruct (Nat.eqb n' n) eqn:E; simpl.
  - apply Nat.eqb_eq in E. subst n'.
    destruct (mem n nodes) eqn:Em; [apply mem_In in Em; contradiction|].
    simpl. destruct (mem p (predecessors g n)); reflexivity.
  - reflexivity.
Qed.

Lemma count_flat_nodes (nodes : list nat) n' :
  NoDup nodes -> incl nodes (univ g) -> In n' (univ g) ->
  count_occ string_dec (flat_map (node_lines g name) nodes) (node_line name n') =
  if mem n' nodes && Nat.eqb (length (predecessors g n')) 0 then 1 else 0.
Proof.
  induction nodes as [|n nodes IH]; intros Hnd Hl Hn'; cbn [flat_map]; [reflexivity|].
  change (mem n' (n :: nodes)) with (Nat.eqb n' n || mem n' nodes).
  inversion Hnd as [|? ? Hn Hnd']; subst.
  assert (Hnu : In n (univ g)) by (apply Hl; left; reflexivity).
  rewrite count_occ_app. rewrite IH by (auto; intros x Hx; apply Hl; right; exact Hx).
  unfold node_lines. rewrite count_occ_app.
  rewrite (count_map_node _ n n' (fun x Hx => wf_pred_closed _ Hwf n x Hnu Hx) Hnu Hn').
  rewrite Nat.add_0_r.
  destruct (Nat.eqb n' n) eqn:E; simpl orb.
  - apply Nat.eqb_eq in E. subst n'.
    destruct (mem n nodes) eqn:Em; [apply mem_In in Em; contradiction|]. simpl andb.
    destruct (Nat.eqb (length (predecessors g n)) 0); cbn [count_occ];
      [destruct (string_dec (node_line name n) (node_line name n)); [reflexivity | congruence]
      |reflexivity].
  - destruct (Nat.eqb (length (predecessors g n)) 0); cbn [count_occ]; [|reflexivity].
    destruct (string_dec (node_line name n) (node_line name n')) as [Ee|Ee]; [|reflexivity].
    apply Nat.eqb_neq in E. exfalso. apply E. symmetry. exact (node_line_inj _ _ Hnu Hn' Ee).
Qed.

End Visualize.

(** X2: [visualize] starts with [graph TD]; with the default
    eight-character node ids (distinct per node), it draws each edge
    [p --> n] exactly once when [n] is collected from the root and [p] is a
    predecessor of [n], and never otherwise; a node gets a line of its own
    exactly when it is collected and has no predecessors. *)
Theorem visualize_draws_each_edge_once g name root :
  wf g -> In root (univ g) ->
  (forall x, In x (univ g) -> String.length (name x) = 8) ->
  (forall x y, In x (univ g) -> In y (univ g) -> name x = name y -> x = y) ->
  let lines := visualize_lines g name root in
  hd_error lines = Some "graph TD"%string /\
  (forall p n, In p (univ g) -> In n (univ g) ->
     count_occ string_dec lines (edge_line name p n) =
     if mem n (collect_nodes g root) && mem p (predecessors g n) then 1 else 0) /\
  (forall n, In n (univ g) ->
     count_occ string_dec lines (node_line name n) =
     if mem n (collect_nodes g root) && Nat.eqb (length (predecessors g n)) 0 then 1 else 0).
Proof.
  intros Hwf Hr Hlen Hinj lines.
  destruct (collect_nodes_spec g (wf_succ_closed _ Hwf) root Hr) as [Hnd Hreach].
  assert (Hincl : incl (collect_nodes g root) (univ g)).
  { intros x Hx. apply (reachable_univ g Hwf root x Hr). apply Hreach. exact Hx. }
  split; [reflexivity|]. split.
  - intros p n Hp Hn. subst lines. unfold visualize_lines. simpl.
    destruct (string_dec "graph TD" (edge_line name p n)) as [E|E].
    + exfalso. apply (f_equal String.length) in E. unfold edge_line in E.
      rewrite !length_append, (Hlen p Hp), (Hlen n Hn) in E. simpl in E. lia.
    + apply (count_flat_edges g name Hwf Hlen Hinj); assumption.
  - intros n Hn. subst lines. unfold visualize_lines. simpl.
    destruct (string_dec "graph TD" (node_line name n)) as [E|E].
    + exfalso. apply (f_equal String.length) in E. unfold node_line in E.
      rewrite !length_append, (Hlen n Hn) in E. simpl in E. lia.
    + apply (count_flat_nodes g name Hwf Hlen Hinj); assumption.
Qed.

Lemma visualize_draws_each_edge_once_witness :
  count_occ string_dec (visualize_lines diamond Scenarios.hex8 0) (edge_line Scenarios.hex8 1 3) = 1.
Proof.
  assert (Hr : In 0 (univ diamond)) by (vm_compute; tauto).
  assert (Hl : forall x, In x (univ diamond) -> String.length (Scenarios.hex8 x) = 8)
    by (intros x Hx; vm_compute in Hx; intuition subst; reflexivity).
  assert (Hi : forall x y, In x (univ diamond) -> In y (univ diamond) ->
                 Scenarios.hex8 x = Scenarios.hex8 y -> x = y).
  { intros x y Hx Hy E; vm_compute in Hx, Hy;
      destruct Hx as [<-|[<-|[<-|[<-|[]]]]]; destruct Hy as [<-|[<-|[<-|[<-|[]]]]];
      first [reflexivity | discriminate E]. }
  destruct (visualize_draws_each_edge_once diamond Scenarios.hex8 0 diamond_wf Hr Hl Hi) as (_ & He & _).
  rewrite (He 1 3); [vm_compute; reflexivity | vm_compute; tauto | vm_compute; tauto].
Defined.

Lemma add_one_present g a b :
  In b (successors g a) -> In a (predecessors g b) -> add_one g a b = g.
Proof.
  intros H1 H2. unfold add_one.
  apply mem_In in H1. rewrite H1. apply mem_In in H2. rewrite H2. reflexivity.
Qed.

Lemma add_one_succ_mono g a b x y : In y (successors g x) -> In y (successors (add_one g a b) x).
Proof.
  rewrite add_one_succ. destruct (Nat.eqb x a && negb (mem b (successors g a))) eqn:E; [|auto].
  apply andb_true_iff in E as [E _]. apply Nat.eqb_eq in E. subst. intros; apply in_or_app; auto.
Qed.

Lemma add_one_pred_mono g a b x y : In y (predecessors g x) -> In y (predecessors (add_one g a b) x).
Proof.
  rewrite add_one_pred. destruct (Nat.eqb x b && negb (mem a (predecessors g b))) eqn:E; [|auto].
  apply andb_true_iff in E as [E _]. apply Nat.eqb_eq in E. subst. intros; apply in_or_app; auto.
Qed.

Lemma add_succ_mono g a ns x y : In y (successors g x) -> In y (successors (add g a ns) x).
Proof.
  unfold add. revert g. induction ns as [|n ns IH]; intros g H; simpl; auto.
  apply IH, add_one_succ_mono, H.
Qed.

Lemma add_pred_mono g a ns x y : In y (predecessors g x) -> In y (predecessors (add g a ns) x).
Proof.
  unfold add. revert g. induction ns as [|n ns IH]; intros g H; simpl; auto.
  apply IH, add_one_pred_mono, H.
Qed.

Lemma add_edges g a ns b : In b ns ->
  In b (successors (add g a ns) a) /\ In a (predecessors (add g a ns) b).
Proof.
  unfold add. revert g. induction ns as [|n ns IH]; intros g Hb; simpl in *; [tauto|].
  destruct Hb as [<- | Hb]; [|apply IH, Hb].
  split; [apply add_succ_mono, add_one_in_succ | apply add_pred_mono, add_one_in_pred].
Qed.

Lemma add_present g a ns :
  (forall b, In b ns -> In b (successors g a) /\ In a (predecessors g b)) -> add g a ns = g.
Proof.
  unfold add. revert g. induction ns as [|n ns IH]; intros g H; simpl; [reflexivity|].
  destruct (H n (or_introl eq_refl)) as [H1 H2]. rewrite (add_one_present _ _ _ H1 H2).
  apply IH. intros b Hb. apply H. right. exact Hb.
Qed.

(** X3: [a.add(nodes)] is idempotent on lists: calling it again with
    the same nodes, or with any of them, leaves every node's
    [successors] and [predecessors] unchanged. *)
Theorem add_list_idempotent g a ns1 ns2 :
  incl ns2 ns1 -> add (add g a ns1) a ns2 = add g a ns1.
Proof.
  intros Hi. apply add_present. intros b Hb. apply add_edges, Hi, Hb.
Qed.

Lemma add_list_idempotent_witness :
  add (add (fresh_graph [0; 1; 2]) 0 [1; 2]) 0 [2] = add (fresh_graph [0; 1; 2]) 0 [1; 2].
Proof.
  apply add_list_idempotent. intros x Hx. simpl in *. tauto.
Defined.

End PipelineExtra.

Module BenchExtra.
Import Bench BenchFacts StringFacts.

Lemma substring_full s : substring 0 (String.length s) s = s.
Proof. induction s as [|c s IH]; simpl; [reflexivity|]. rewrite IH. reflexivity. Qed.

Lemma substring_split s k :
  k <= String.length s ->
  String.append (substring 0 k s) (substring k (String.length s - k) s) = s.
Proof.
  revert k. induction s as [|c s IH]; intros k Hk.
  - destruct k; reflexivity.
  - destruct k as [|k]; simpl.
    + rewrite substring_full. reflexivity.
    + f_equal. apply IH. simpl in Hk. lia.
Qed.

(** A name ending in [.yaml] longer than the suffix is its stem followed
    by [.yaml]. *)
Lemma stem_yaml_name name :
  ends_with_yaml name = true -> name <> ".yaml"%string -> yaml_name (stem name) = name.
Proof.
  unfold ends_with_yaml, stem, yaml_name. intros H Hn.
  apply andb_prop in H as [H5 Hs]. apply Nat.leb_le in H5. apply String.eqb_eq in Hs.
  destruct (5 <? String.length name) eqn:E.
  - pose proof (substring_split name (String.length name - 5) ltac:(lia)) as Hsp.
    replace (String.length name - (String.length name - 5)) with 5 in Hsp by lia.
    rewrite Hs in Hsp. exact Hsp.
  - apply Nat.ltb_ge in E. exfalso. apply Hn.
    assert (String.length name = 5) by lia. rewrite H in Hs. simpl in Hs.
    rewrite <- Hs. replace 5 with (String.length name) by assumption. symmetry. apply substring_full.
Qed.

Lemma stem_of_yaml_name x : x <> EmptyString -> stem (yaml_name x) = x.
Proof.
  intros Hx. unfold stem, yaml_name. rewrite length_append. simpl.
  destruct (5 <? String.length x + 5) eqn:E.
  - replace (String.length x + 5 - 5) with (String.length x) by lia. apply substring_app_l.
  - apply Nat.ltb_ge in E. destruct x; [congruence | simpl in E; lia].
Qed.

Lemma NoDup_map_on {A B} (f : A -> B) (l : list A) :
  (forall x y, In x l -> In y l -> f x = f y -> x = y) -> NoDup l -> NoDup (map f l).
Proof.
  induction l as [|a l IH]; intros Hinj Hnd; simpl; [constructor|].
  inversion Hnd as [|? ? Hna Hnd']; subst. constructor.
  - intros Hin. apply in_map_iff in Hin as (b & Hb & Hbl).
    assert (b = a) by (apply Hinj; [right; exact Hbl | left; reflexivity | exact Hb]). subst. contradiction.
  - apply IH; auto. intros x y Hx Hy. apply Hinj; right; assumption.
Qed.

(** X4: when the level directory's file names are distinct and
    none is the bare [.yaml], [_list_env_worlds] lists each world id once,
    and the file [<world_id>.yaml] of every listed id exists in the
    directory that [_validate_level] looks in. *)
Theorem listed_worlds_resolve wl mode entries :
  (if String.eqb mode "val" then wl_val_levels wl else wl_levels wl) = Some entries ->
  NoDup (map fst entries) -> ~ In ".yaml"%string (map fst entries) ->
  NoDup (list_env_worlds wl mode) /\
  (forall w, In w (list_env_worlds wl mode) ->
     exists y, dir_lookup (Some entries) (yaml_name w) = Some y).
Proof.
  intros Hd Hnd Hdot. unfold list_env_worlds. rewrite Hd.
  pose proof (sort_strings_perm (level_ids (Some entries))) as Hp.
  unfold level_ids in *.
  set (names := filter ends_with_yaml (map fst entries)) in *.
  assert (Hnames : forall x, In x names -> ends_with_yaml x = true /\ In x (map fst entries))
    by (intros x Hx; apply filter_In in Hx; tauto).
  assert (Hyn : forall x, In x names -> yaml_name (stem x) = x).
  { intros x Hx. destruct (Hnames x Hx) as [He Hin]. apply stem_yaml_name; [exact He|].
    intros ->. contradiction. }
  split.
  - apply (Permutation_NoDup (Permutation_sym Hp)). apply NoDup_map_on.
    + intros x y Hx Hy Hxy. rewrite <- (Hyn x Hx), <- (Hyn y Hy), Hxy. reflexivity.
    + apply NoDup_filter. exact Hnd.
  - intros w Hw. apply (Permutation_in _ Hp) in Hw.
    apply in_map_iff in Hw as (name & <- & Hname). rewrite (Hyn name Hname).
    destruct (Hnames name Hname) as [_ Hin]. apply in_map_iff in Hin as ([n y] & Hn & Hin).
    simpl in Hn. subst n. unfold dir_lookup.
    destruct (find (fun e => String.eqb (fst e) name) entries) as [[n' y']|] eqn:Hf.
    + exists y'. reflexivity.
    + apply (find_none _ _ Hf) in Hin. simpl in Hin. rewrite String.eqb_refl in Hin. discriminate.
Qed.

Lemma listed_worlds_resolve_witness :
  NoDup (list_env_worlds (Scenarios.maze YamlOk) "test") /\
  exists y, dir_lookup (wl_levels (Scenarios.maze YamlOk)) (yaml_name "level_03") = Some y.
Proof.
  destruct (listed_worlds_resolve (Scenarios.maze YamlOk) "test"
              [("level_04.yaml", YamlOk); ("level_02.yaml", YamlOk); ("notes.txt", YamlOk);
               ("level_05.yaml", YamlOk); ("level_01.yaml", YamlOk); ("level_03.yaml", YamlOk)]%string)
    as [Hn Hl].
  - reflexivity.
  - repeat (apply NoDup_cons; [simpl; intuition discriminate|]). apply NoDup_nil.
  - simpl. intuition discriminate.
  - split; [exact Hn|]. apply Hl. vm_compute. tauto.
Defined.

Lemma dict_get_set {V} k k' (v : V) d def :
  dict_get k (dict_set k' v d) def = if String.eqb k' k then v else dict_get k d def.
Proof.
  induction d as [|[k0 v0] r IH]; simpl.
  - destruct (String.eqb k k') eqn:E1, (String.eqb k' k) eqn:E2; auto;
      rewrite String.eqb_sym in E1; congruence.
  - destruct (String.eqb k' k0) eqn:E0; simpl.
    + apply String.eqb_eq in E0. subst k0.
      destruct (String.eqb k k') eqn:E1, (String.eqb k' k) eqn:E2; auto;
        rewrite String.eqb_sym in E1; congruence.
    + rewrite IH. destruct (String.eqb k k0) eqn:E1; [|reflexivity].
      apply String.eqb_eq in E1. subst k0.
      rewrite E0. reflexivity.
Qed.

Lemma collect_max_rewards_err levels acc :
  collect_max_rewards acc levels = None <->
  exists name info, In (name, info) levels /\ forall fields, info <> JObj fields.
Proof.
  revert acc. induction levels as [|[name info] rest IH]; intros acc; simpl.
  - split; [discriminate | intros (n & i & [] & _)].
  - destruct info as [| | | | |fields];
      try (split; [intros _; eexists; eexists; split; [left; reflexivity | discriminate]
                  | reflexivity]).
    rewrite IH. split.
    + intros (n & i & Hin & Hi). exists n, i. split; [right; exact Hin | exact Hi].
    + intros (n & i & [Heq | Hin] & Hi).
      * injection Heq as <- <-. exfalso. exact (Hi fields eq_refl).
      * exists n, i. split; assumption.
Qed.

Lemma collect_max_rewards_lookup levels :
  forall acc m, collect_max_rewards acc levels = Some m ->
  forall k def,
  dict_get k m def =
  match find (fun e => String.eqb (replace_yaml (fst e)) k) (rev levels) with
  | Some (_, JObj info) => dict_get "max_reward" info (JNum 0%float)
  | _ => dict_get k acc def
  end.
Proof.
  induction levels as [|[name info] rest IH]; intros acc m Hc k def; simpl in Hc.
  - injection Hc as <-. reflexivity.
  - destruct info as [| | | | |fields]; try discriminate.
    rewrite (IH _ _ Hc k def). simpl. rewrite find_app. simpl.
    destruct (find (fun e => String.eqb (replace_yaml (fst e)) k) (rev rest)) as [[n' i']|] eqn:Hf.
    { destruct i' as [| | | | |f']; try reflexivity; exfalso;
        apply find_some in Hf as [Hin _]; apply in_rev in Hin;
        assert (Hn : collect_max_rewards
                  (dict_set (replace_yaml name) (dict_get "max_reward" fields (JNum 0%float)) acc)
                  rest = None) by (apply collect_max_rewards_err; exists n'; eexists;
                                   split; [exact Hin | discriminate]);
        congruence. }
    rewrite dict_get_set. destruct (String.eqb (replace_yaml name) k); reflexivity.
Qed.

(** X5: for a decoded [level_max_rewards.json] whose [levels] is an
    object, [_load_max_rewards] raises exactly when some level entry is
    not an object; otherwise the reward stored under a key [k] is the
    [max_reward] (default [0.0]) of the last level whose name with every
    [.yaml] removed is [k], and a key of no level is absent. *)
Theorem load_max_rewards_lookup data levels_data :
  dict_get "levels" data (JObj []) = JObj levels_data ->
  (load_max_rewards (MRDecoded (JObj data)) = None <->
   exists name info, In (name, info) levels_data /\ forall fields, info <> JObj fields) /\
  (forall m, load_max_rewards (MRDecoded (JObj data)) = Some m ->
   forall k def,
   dict_get k m def =
   match find (fun e => String.eqb (replace_yaml (fst e)) k) (rev levels_data) with
   | Some (_, JObj info) => dict_get "max_reward" info (JNum 0%float)
   | _ => def
   end).
Proof.
  intros Hl. simpl. rewrite Hl. split.
  - apply collect_max_rewards_err.
  - intros m Hm k def. rewrite (collect_max_rewards_lookup _ _ _ Hm k def).
    destruct (find _ (rev levels_data)) as [[n' [| | | | |f']]|]; reflexivity.
Qed.

Lemma load_max_rewards_lookup_witness :
  load_max_rewards (MRDecoded (JObj Scenarios.mr_data)) <> None /\
  forall m, load_max_rewards (MRDecoded (JObj Scenarios.mr_data)) = Some m ->
    dict_get "a" m JNull = JNum 3%float /\ dict_get "b" m JNull = JNum 0%float.
Proof.
  destruct (load_max_rewards_lookup Scenarios.mr_data
              [("a.yaml", JObj [("max_reward", JNum 3%float)]); ("b.yaml", JObj [])]%string eq_refl)
    as [Hn Hl].
  split.
  - intros Hnone. apply Hn in Hnone. destruct Hnone as (nm & info & Hin & Hinfo).
    simpl in Hin. destruct Hin as [E|[E|[]]]; injection E as <- <-; eapply Hinfo; reflexivity.
  - intros m Hm. rewrite !(Hl m Hm). vm_compute. split; reflexivity.
Defined.

Lemma replace_yaml_aux_dotfree x :
  (forall i c, String.get i x = Some c -> c <> "."%char) ->
  forall f, String.length x < f -> replace_yaml_aux f (yaml_name x) = x.
Proof.
  induction x as [|c x IH]; intros Hx f Hf; destruct f as [|f]; simpl in Hf; try lia.
  - simpl. destruct f; reflexivity.
  - unfold yaml_name. simpl String.append. cbn [replace_yaml_aux].
    assert (Hc : c <> "."%char) by (apply (Hx 0); reflexivity).
    replace (String.prefix ".yaml" (String c (String.append x ".yaml"))) with false.
    + f_equal. apply IH; [|lia]. intros i c' Hi. apply (Hx (S i)). exact Hi.
    + cbn [String.prefix]. destruct (ascii_dec "." c); [congruence | reflexivity].
Qed.

(** X6: for a level id without dots, the id [_list_env_worlds] gives
    the file [<id>.yaml] (its stem) equals the key [_load_max_rewards]
    gives it (the name with [.yaml] removed), so the per-world maximum
    reward is found. *)
Theorem world_id_matches_max_reward_key x :
  x <> EmptyString -> (forall i c, String.get i x = Some c -> c <> "."%char) ->
  ends_with_yaml (yaml_name x) = true /\
  stem (yaml_name x) = x /\ replace_yaml (yaml_name x) = x.
Proof.
  intros Hne Hx. split; [|split].
  - unfold ends_with_yaml, yaml_name. rewrite length_append.
    change (String.length ".yaml") with 5. apply andb_true_intro. split; [apply Nat.leb_le; simpl; lia|].
    apply String.eqb_eq. replace (String.length x + 5 - 5) with (String.length x) by lia.
    clear. induction x; simpl; auto.
  - apply stem_of_yaml_name. exact Hne.
  - unfold replace_yaml. apply replace_yaml_aux_dotfree; [exact Hx|].
    unfold yaml_name. rewrite length_append. simpl. lia.
Qed.

Lemma world_id_matches_max_reward_key_witness :
  replace_yaml (yaml_name "level_01") = "level_01"%string.
Proof.
  apply (world_id_matches_max_reward_key "level_01"); [discriminate|].
  intros i c Hc. do 8 (destruct i as [|i]; [vm_compute in Hc; injection Hc as <-; discriminate|]).
  vm_compute in Hc. discriminate.
Defined.

Lemma dict_set_keys {V} k (v : V) d :
  map fst (dict_set k v d) = if existsb (String.eqb k) (map fst d) then map fst d else map fst d ++ [k].
Proof.
  induction d as [|[k' v'] r IH]; simpl; [reflexivity|].
  destruct (String.eqb k k') eqn:E; simpl; [reflexivity|].
  rewrite IH. destruct (existsb (String.eqb k) (map fst r)); reflexivity.
Qed.

Lemma last_key {V} (d : list (string * V)) k v rest :
  rev d = (k, v) :: rest -> k = last (map fst d) EmptyString.
Proof.
  intros H. apply (f_equal (@rev _)) in H. rewrite rev_involutive in H. simpl in H. subst d.
  rewrite map_app. simpl. rewrite last_last. reflexivity.
Qed.

(** X7: when the result folders can be created,
    [level_max_rewards.json] is well formed with a number for each
    selected world, the append succeeds and every selected world runs,
    [execute] returns normally
    and appends one report row whose [env_path] column is the environment
    just run only if that environment had no earlier result; otherwise
    it is the last environment of the earlier results (dict insertion
    order keeps the updated key in place). *)
Theorem execute_reports_last_env st fs wl solver k max_worlds world_mode cost elapsed now mr :
  (0 < k)%Z ->
  (forall w, In w (select_worlds wl world_mode max_worlds) -> exists x, run_world wl solver w = Ok x) ->
  fs_fail fs OpMakedirs = false ->
  load_max_rewards (wl_max_rewards wl) = Some mr ->
  (forall w, In w (select_worlds wl world_mode max_worlds) ->
     exists x, json_number (dict_get w mr (JNum 0%float)) = Ok x) ->
  fs_fail fs OpAppend = false ->
  let path := wl_path wl in
  let keys := map fst (b_results st) in
  let '(st', fs', out) := execute st fs wl solver k max_worlds world_mode cost elapsed now in
  out = Returned /\
  exists f rest,
    fs_csv fs' = Some (f ++ [CStr (if existsb (String.eqb path) keys then last keys EmptyString else path) :: rest]).
Proof.
  intros Hk Hw Hmk Hmr Hnum Ha path keys. unfold execute. rewrite Hmk, Hmr. cbv zeta.
  destruct (py_sum_ok (map snd (map (fun w => (w, dict_get w mr (JNum 0%float)))
                                  (select_worlds wl world_mode max_worlds)))) as [total Ht].
  { intros v Hv. rewrite map_map in Hv. apply in_map_iff in Hv as (w & <- & Hw').
    exact (Hnum w Hw'). }
  rewrite Ht.
  assert (Hk1 : (k <? 0)%Z = false) by (apply Z.ltb_ge; lia).
  assert (Hk2 : (k =? 0)%Z = false) by (apply Z.eqb_neq; lia).
  rewrite Hk1, Hk2. simpl andb. cbv iota.
  destruct (gather_ok (run_world wl solver) _ Hw) as [raw Hg]. rewrite Hg.
  unfold finish.
  match goal with |- context [map_result (world_detail ?p) raw] =>
    destruct (map_result_world_detail_ok p raw) as [ds Hds] end.
  rewrite Hds. cbv zeta.
  match goal with |- context [save_csv ?s now fs] => set (st3 := s) end.
  assert (Hne : b_results st3 <> []) by apply dict_set_nonempty.
  destruct (rev_nonempty _ Hne) as (env & v & rest & Hr).
  destruct (build_row_ok st3 now env v rest Hr) as (row & Hrow & Hkeys & _).
  pose proof (save_csv_file st3 now fs row Hrow Ha) as Hf.
  pose proof (save_csv_outcome st3 now fs Hne) as Ho. rewrite Ha in Ho.
  destruct (save_csv st3 now fs) as [fs' o] eqn:Hs. simpl in Hf, Ho. subst o.
  assert (Hout : forall m, (if PrimFloat.ltb 0%float m
                 then match py_truediv (fsum (map wd_reward ds)) m with
                      | Ok _ => (st3, fs', Returned) | Err e => (st3, fs', Raised e) end
                 else (st3, fs', Returned)) = (st3, fs', Returned)).
  { intros m. destruct (PrimFloat.ltb 0%float m) eqn:Hm; [|reflexivity].
    unfold py_truediv. rewrite (ltb_zero_eqb m Hm). reflexivity. }
  rewrite Hout. split; [reflexivity|].
  rewrite Hf.
  assert (Henv : env = if existsb (String.eqb path) keys then last keys EmptyString else path).
  { rewrite (last_key _ _ _ _ Hr). subst st3 keys path. cbn [b_results set_costs set_results].
    rewrite !dict_set_keys. cbn [set_world_details set_env_durations set_max_rewards
      set_per_world_max_rewards set_env_world_ids b_results].
    destruct (existsb (String.eqb (wl_path wl)) (map fst (b_results st))) eqn:E.
    - reflexivity.
    - apply last_last. }
  destruct row as [|[k0 c0] row']; [discriminate|].
  simpl in Hkeys. injection Hkeys as Hk0 _. subst k0.
  unfold build_row in Hrow. rewrite Hr in Hrow. cbv zeta in Hrow.
  rewrite ratio_of_spec in Hrow. simpl bind in Hrow. rewrite !avg_ok in Hrow. simpl in Hrow.
  injection Hrow; intros; subst.
  eexists; eexists. rewrite app_assoc. simpl. reflexivity.
Qed.

Lemma execute_reports_last_env_witness :
  let '(st', fs', out) := execute Scenarios.st_two (mkFs None Scenarios.no_failure) (Scenarios.maze YamlOk)
                            Scenarios.steady_solver 2%Z None None None 1%float Scenarios.now in
  out = Returned /\
  exists f rest, fs_csv fs' = Some (f ++ [CStr "envs/other" :: rest]).
Proof.
  pose proof (execute_reports_last_env Scenarios.st_two (mkFs None Scenarios.no_failure) (Scenarios.maze YamlOk)
                Scenarios.steady_solver 2%Z None None None 1%float Scenarios.now
                Scenarios.maze_max_rewards) as H.
  assert (Hk : (0 < 2)%Z) by lia.
  assert (Hw : forall w, In w (select_worlds (Scenarios.maze YamlOk) None None) ->
                 exists x, run_world (Scenarios.maze YamlOk) Scenarios.steady_solver w = Ok x).
  { intros w Hw. vm_compute in Hw. intuition subst; eexists; vm_compute; reflexivity. }
  assert (Hn : forall w, In w (select_worlds (Scenarios.maze YamlOk) None None) ->
     exists x, json_number (dict_get w Scenarios.maze_max_rewards (JNum 0%float)) = Ok x).
  { intros w Hw'. vm_compute in Hw'. intuition subst; eexists; vm_compute; reflexivity. }
  specialize (H Hk Hw eq_refl ltac:(vm_compute; reflexivity) Hn eq_refl). exact H.
Defined.
(** X8: when no world is selected ([max_worlds = 0] or no level
    file), the result folders can be created,
    [level_max_rewards.json] is well formed and the append succeeds,
    [execute] with a non-negative concurrency returns normally and
    records [0.0] as both its total reward and its maximum reward
    total, and empty world details and world ids for the environment. *)
Theorem execute_no_worlds st fs wl solver k max_worlds world_mode cost elapsed now mr :
  select_worlds wl world_mode max_worlds = [] -> (0 <= k)%Z ->
  fs_fail fs OpMakedirs = false -> load_max_rewards (wl_max_rewards wl) = Some mr ->
  fs_fail fs OpAppend = false ->
  let path := wl_path wl in
  let '(st', fs', out) := execute st fs wl solver k max_worlds world_mode cost elapsed now in
  out = Returned /\
  (forall def, dict_get path (b_results st') def = 0%float) /\
  (forall def, dict_get path (b_max_rewards st') def = 0%float) /\
  (forall def, dict_get path (b_world_details st') def = []) /\
  (forall def, dict_get path (b_env_world_ids st') def = []).
Proof.
  intros Hs Hk Hmk Hmr Ha path. unfold execute. rewrite Hmk, Hmr. cbv zeta. rewrite Hs.
  change (py_sum (map snd (map (fun w => (w, dict_get w mr (JNum 0%float))) [])))
    with (@Ok float 0%float).
  cbv beta iota.
  assert (Hk1 : (k <? 0)%Z = false) by (apply Z.ltb_ge; lia).
  rewrite Hk1. simpl andb. rewrite andb_false_r. cbn [gather map].
  cbv iota. unfold finish. cbn [map_result]. cbv zeta.
  match goal with |- context [save_csv ?s now fs] =>
    pose proof (save_csv_outcome s now fs (dict_set_nonempty _ _ _)) as Ho;
    destruct (save_csv s now fs) as [fs' o] eqn:E
  end.
  rewrite Ha in Ho. simpl in Ho. subst o.
  replace (PrimFloat.ltb 0%float 0%float) with false by reflexivity.
  split; [reflexivity|].
  cbn [b_results b_max_rewards b_world_details b_env_world_ids set_costs set_results
       set_world_details set_env_durations set_max_rewards set_per_world_max_rewards
       set_env_world_ids].
  subst path. repeat split; intros def; rewrite dict_get_set, String.eqb_refl; reflexivity.
Qed.

Lemma execute_no_worlds_witness :
  let '(st', fs', out) := execute Scenarios.st_done (mkFs None Scenarios.no_failure) (Scenarios.maze YamlOk)
                            Scenarios.steady_solver 1%Z (Some 0%Z) None None 1%float Scenarios.now in
  out = Returned /\ dict_get "envs/maze" (b_results st') 7%float = 0%float.
Proof.
  pose proof (execute_no_worlds Scenarios.st_done (mkFs None Scenarios.no_failure) (Scenarios.maze YamlOk)
                Scenarios.steady_solver 1%Z (Some 0%Z) None None 1%float Scenarios.now
                Scenarios.maze_max_rewards) as H.
  specialize (H ltac:(vm_compute; reflexivity) ltac:(lia) eq_refl ltac:(vm_compute; reflexivity) eq_refl).
  destruct (execute _ _ _ _ _ _ _ _ _ _) as [[st' fs'] out].
  destruct H as (Ho & Hr & _). split; [exact Ho | apply Hr].
Defined.







End BenchExtra.

Module SemaphoreExtra.
Import Semaphore SemaphoreFacts.

Lemma pending_split l1 p l2 :
  fold_right (fun p n => weight p + n) 0 (l1 ++ p :: l2) =
  fold_right (fun p n => weight p + n) 0 l1 + weight p + fold_right (fun p n => weight p + n) 0 l2.
Proof. induction l1; simpl; lia. Qed.

Lemma in_flight_zero l : ~ In Running l -> length (filter is_running l) = 0.
Proof.
  induction l as [|a l IH]; intros H; simpl; [reflexivity|].
  destruct a; simpl; try (apply IH; intros Hr; apply H; right; exact Hr).
  exfalso. apply H. left. reflexivity.
Qed.

Lemma phase_eq (a b : phase) : {a = b} + {a <> b}.
Proof. decide equality. apply bool_dec. Qed.

Lemma pending_zero l : fold_right (fun p n => weight p + n) 0 l = 0 -> forallb is_finished l = true.
Proof. induction l as [|a l IH]; [reflexivity|]. destruct a; simpl; intros H; try lia. apply IH; lia. Qed.

Lemma sem_progress k n :
  (1 <= k)%Z ->
  forall m s, pending s <= m -> sem_inv k n s ->
  exists s', clos_refl_trans _ sem_step s s' /\ forallb is_finished (items s') = true.
Proof.
  intros Hk m. induction m as [|m IH]; intros [v l] Hm Hinv.
  - exists (mkSem v l). split; [apply rt_refl|]. apply pending_zero. unfold pending in Hm. cbn [items] in Hm |- *. lia.
  - destruct (in_dec phase_eq Running l) as [Hr | Hr].
    + apply in_split in Hr. destruct Hr as (l1 & l2 & ->).
      pose proof (step_release v l1 l2 true) as Hs.
      destruct (IH (mkSem (v + 1) (l1 ++ Finished true :: l2))
                  ltac:(unfold pending in *; simpl in *; rewrite pending_split in *; simpl in *; lia)
                  (sem_step_inv k n _ _ Hs Hinv)) as (s' & Hr' & Hf).
      exists s'. split; [eapply rt_trans; [apply rt_step; exact Hs | exact Hr'] | exact Hf].
    + destruct (in_dec phase_eq Waiting l) as [Hw | Hw].
      * apply in_split in Hw. destruct Hw as (l1 & l2 & ->).
        pose proof Hinv as (H0 & H1 & H2). unfold in_flight in H1. simpl in H1.
        rewrite (in_flight_zero _ Hr) in H1.
        pose proof (step_acquire v l1 l2 ltac:(lia)) as Hs.
        destruct (IH (mkSem (v - 1) (l1 ++ Running :: l2))
                    ltac:(unfold pending in *; simpl in *; rewrite pending_split in *; simpl in *; lia)
                    (sem_step_inv k n _ _ Hs Hinv)) as (s' & Hr' & Hf).
        exists s'. split; [eapply rt_trans; [apply rt_step; exact Hs | exact Hr'] | exact Hf].
      * exists (mkSem v l). split; [apply rt_refl|]. simpl.
        apply forallb_forall. intros [| |ok] Hx; [contradiction | contradiction | reflexivity].
Qed.

(** X10: with [world_concurrency >= 1], from any state the event
    loop reaches, every world of the batch can still be brought to an
    end; with [world_concurrency = 0] and at least one world, no world
    ever starts. *)
Theorem semaphore_batch_completes k n s0 s :
  sem_init k n = Some s0 -> clos_refl_trans _ sem_step s0 s ->
  ((1 <= k)%Z ->
     exists s', clos_refl_trans _ sem_step s s' /\ forallb is_finished (items s') = true) /\
  (k = 0%Z -> 0 < n -> forall s', ~ sem_step s0 s').
Proof.
  intros Hi Hr. split.
  - intros Hk. apply (sem_progress k n Hk (pending s) s (le_n _)).
    exact (sem_reach_inv k n s0 s Hr (sem_init_inv k n s0 Hi)).
  - intros -> Hn s' Hs. unfold sem_init in Hi. simpl in Hi. injection Hi as <-.
    inversion Hs as [v l1 l2 Hv E1 E2 | v l1 l2 ok E1 E2]; subst; [lia|].
    match goal with E : _ = repeat Waiting n |- _ =>
      assert (Hin : In Running (repeat Waiting n)) by (rewrite <- E; apply in_elt) end.
      apply repeat_spec in Hin. discriminate.
Qed.

Lemma semaphore_batch_completes_witness :
  (exists s', clos_refl_trans _ sem_step (mkSem 2 (repeat Waiting 3)) s' /\
              forallb is_finished (items s') = true) /\
  (forall s', ~ sem_step (mkSem 0 (repeat Waiting 3)) s').
Proof.
  split.
  - apply (semaphore_batch_completes 2 3 (mkSem 2 (repeat Waiting 3))); [reflexivity|apply rt_refl|lia].
  - apply (semaphore_batch_completes 0 3 (mkSem 0 (repeat Waiting 3)) (mkSem 0 (repeat Waiting 3)));
      [reflexivity|apply rt_refl|reflexivity|lia].
Defined.

End SemaphoreExtra.

Module LoaderExtra.
Import Bench Loader LoaderFacts.

Lemma remove_first_length x l : In x l -> length (remove_first x l) = length l - 1.
Proof.
  induction l as [|y l IH]; simpl; [tauto|]. intros H.
  destruct (String.eqb x y) eqn:E; [lia|].
  destruct H as [<-|H]; [rewrite String.eqb_refl in E; discriminate|].
  simpl. rewrite IH by exact H. destruct l; simpl in *; [tauto|lia].
Qed.

Lemma remove_first_once x l : count_occ string_dec l x = 1 -> ~ In x (remove_first x l).
Proof.
  induction l as [|y l IH]; simpl; intros Hc; [discriminate|].
  destruct (String.eqb x y) eqn:E.
  - apply String.eqb_eq in E. subst y.
    destruct (string_dec x x) as [_|Hne]; [|contradiction].
    injection Hc as Hc. apply (count_occ_not_In string_dec). exact Hc.
  - apply String.eqb_neq in E.
    destruct (string_dec y x) as [Hyx|_]; [congruence|].
    simpl. intros [Hy|Hx]; [congruence|exact (IH Hc Hx)].
Qed.

Lemma load_entry_present env_dir p :
  In env_dir (sys_path p) -> sys_path (load_entry env_dir p) = sys_path p.
Proof. intros H. unfold load_entry. apply str_in_In in H. rewrite H. reflexivity. Qed.

(** X11: when the environment directory was already on [sys.path]
    and the module body leaves [sys.path] alone, [_load_env] still removes
    an entry of it: [sys.path] loses its first occurrence and is one entry
    shorter, and the directory is gone from it when it occurred once
    (the prior working directory still existing after the body ran). *)
Theorem load_env_drops_existing_entry env_dir body p :
  In env_dir (dirs p) -> canonical env_dir = true -> canonical (cwd p) = true ->
  In env_dir (sys_path p) ->
  In (cwd p) (dirs (fst (body (load_entry env_dir p)))) ->
  sys_path (fst (body (load_entry env_dir p))) = sys_path (load_entry env_dir p) ->
  let p' := fst (load_env_proc true env_dir body p) in
  sys_path p' = remove_first env_dir (sys_path p) /\
  length (sys_path p') = length (sys_path p) - 1 /\
  (count_occ string_dec (sys_path p) env_dir = 1 -> ~ In env_dir (sys_path p')).
Proof.
  intros Hd Hcd Hcc Hs Hc Hb p'. subst p'.
  rewrite (load_env_proc_spec env_dir body p Hd Hcd Hcc Hc). simpl.
  rewrite Hb, (load_entry_present _ _ Hs).
  split; [reflexivity|]. split; [apply remove_first_length, Hs|]. apply remove_first_once.
Qed.

Lemma load_env_drops_existing_entry_witness :
  sys_path (fst (load_env_proc true "/envs/maze" ProcScenarios.body_ok ProcScenarios.proc_on_path)) =
  ["/usr/lib/python3"%string] /\
  ~ In "/envs/maze"%string
      (sys_path (fst (load_env_proc true "/envs/maze" ProcScenarios.body_ok ProcScenarios.proc_on_path))).
Proof.
  destruct (load_env_drops_existing_entry "/envs/maze" ProcScenarios.body_ok ProcScenarios.proc_on_path)
    as (H1 & _ & H3); try (vm_compute; tauto); try reflexivity.
  split; [exact H1|]. apply H3. vm_compute. reflexivity.
Defined.

End LoaderExtra.
